(** * Dependency resolution of [JointDistributionNamed]

    A shallow embedding of
    [tensorflow_probability/python/distributions/joint_distribution_named.py]:
    the depth annotator [_depth], the order packer [_best_order], the
    invocation wrappers built by [_prob_chain_rule_flatten] and the
    [_flatten] / [_unflatten] adapters, followed by the properties the
    specification states about them. *)

From stdpp Require Import base numbers functions list sorting strings gmap.

Open Scope string_scope.
Open Scope list_scope.
Open Scope nat_scope.

(** ** Python values, exceptions and dicts *)

(** Exceptions the modelled code can raise. [RecursionError] is what CPython
    raises when the nesting of calls exceeds its recursion limit; the
    recursive functions below take the number of nested calls that the
    limit leaves room for as their first argument. *)
Inductive exn :=
  | KeyError (k : string)
  | AttributeError (attr : string)
  | RecursionError
  | ValueError
  | TypeError.

Inductive exc (A : Type) :=
  | Ok (a : A)
  | Raise (e : exn).
Arguments Ok {A} a.
Arguments Raise {A} e.

Global Instance exc_ret : MRet exc := λ A a, Ok a.
Global Instance exc_bind : MBind exc := λ A B f m,
  match m with
  | Ok a => f a
  | Raise e => Raise e
  end.

(** [for x in xs: s = body(x, s)] with exceptions. *)
Fixpoint for_each {A S} (body : A → S → exc S) (xs : list A) (s : S) : exc S :=
  match xs with
  | [] => Ok s
  | x :: xs' => s' ← body x s; for_each body xs' s'
  end.

(** A Python [dict] whose insertion order matters: an association list with
    pairwise distinct keys, in insertion order. *)
Abbreviation dict V := (list (string * V)).

Fixpoint dict_get {V} (d : dict V) (k : string) : option V :=
  match d with
  | [] => None
  | (k', v) :: d' => if decide (k' = k) then Some v else dict_get d' k
  end.

Definition keys {V} (d : dict V) : list string := d.*1.
Definition values {V} (d : dict V) : list V := d.*2.

(** [sorted(l, key=key, reverse=reverse)]: Python's sort is stable, also with
    [reverse=True]. *)
Fixpoint insert_by {A} (key : A → Z) (x : A) (l : list A) : list A :=
  match l with
  | [] => [x]
  | y :: l' => if (key x <=? key y)%Z then x :: l else y :: insert_by key x l'
  end.

Definition sorted {A} (key : A → Z) (reverse : bool) (l : list A) : list A :=
  if reverse then foldr (insert_by (λ x, - key x)%Z) [] l
  else foldr (insert_by key) [] l.
Global Arguments sorted : simpl never.

(** [max(l)] on a non-empty list of integers ([0] stands for the
    [ValueError] of the empty list, which the code below never reaches). *)
Definition py_max (l : list Z) : Z :=
  match l with
  | [] => 0
  | x :: l' => foldl Z.max x l'
  end.
Global Arguments py_max : simpl never.

(** ** The graph *)

(** The dependency declaration of a producer: [None] for a
    distribution instance, otherwise the tuple of its required argument
    names. *)
Abbreviation deps := (option (list string)).

(** Python truthiness of [v.parents]: [None] and [()] are false. *)
Definition truthy (ps : deps) : bool :=
  match ps with
  | Some (_ :: _) => true
  | _ => false
  end.

(** [class _Node]. The attributes [name] and [parents] are never assigned
    after [__init__]; the mutable attribute [depth] lives in a store
    indexed by the node's name, which is the node's key in the annotated
    graph and so identifies the object. [__init__] sets it to [-1]. *)
Record _Node := mk_Node { name : string; parents : deps }.

Abbreviation depths := (string → Z).

Definition init_depths : depths := λ _, (-1)%Z.

(** [{k: _Node(k, v) for k, v in g.items()}] *)
Definition annotate (g : dict deps) : dict _Node :=
  map (λ kv, (kv.1, mk_Node kv.1 kv.2)) g.

(** An element of [result] in [_best_order]: [(u.name, u.parents)] for a
    node without parents, [(u.name, [...])] otherwise. *)
Abbreviation entry := (string * deps)%type.

Section resolver.
(** The number of nested calls of a local [_explore] that CPython's
    recursion limit leaves room for. *)
Variable limit : nat.

(** *** [_depth] *)

Section depth.
Variable annotated_graph : dict _Node.

(** [[rec(annotated_graph[u]) for u in ps]] *)
Fixpoint explore_parents (rec : _Node → depths → exc (Z * depths))
    (ps : list string) (st : depths) : exc (list Z * depths) :=
  match ps with
  | [] => Ok ([], st)
  | u :: ps' =>
      match dict_get annotated_graph u with
      | None => Raise (KeyError u)
      | Some nu =>
          '(d, st1) ← rec nu st;
          '(ds, st2) ← explore_parents rec ps' st1;
          Ok (d :: ds, st2)
      end
  end.

(** The local [_explore] of [_depth]; [fuel] is the number of nested
    calls still allowed. *)
Fixpoint _depth_explore (fuel : nat) (v : _Node) (st : depths)
    : exc (Z * depths) :=
  match fuel with
  | O => Raise RecursionError
  | S fuel' =>
      if (st (name v) <? 0)%Z then
        if truthy (parents v) then
          '(ds, st1) ← explore_parents (_depth_explore fuel')
                         (default [] (parents v)) st;
          let d := (1 + py_max ((-1) :: ds))%Z in
          Ok (d, <[name v := d]> st1)
        else Ok (0%Z, <[name v := 0%Z]> st)
      else Ok (st (name v), st)
  end.
End depth.

(** [_depth(g)] returns the annotated graph; here together with the
    store of the nodes' [depth] attributes. *)
Definition _depth (g : dict deps) : exc (dict _Node * depths) :=
  let annotated_graph := annotate g in
  st ← for_each (λ v st, '(_, st') ← _depth_explore annotated_graph limit v st; Ok st')
         (values annotated_graph) init_depths;
  Ok (annotated_graph, st).

(** *** [_best_order] *)

Record state := mk_state { depth : depths; result : list entry }.

(** [b[1].extend(xs)], where [b] is the tuple sitting at index [i] of
    [result] (tuples are appended, never moved). *)
Definition extend (i : nat) (xs : list string) (r : list entry) : list entry :=
  alter (λ b, (b.1, (λ l, l ++ xs) <$> b.2)) i r.

Section best_order.
Variable g : dict _Node.

(** [sorted((g.get(p) for p in ps), key=lambda v: v.depth)]; on a
    name that [g] lacks, [g.get] yields [None], whose [depth] does not
    exist. *)
Definition sorted_parents (ps : list string) (st : depths) : exc (list _Node) :=
  vs ← for_each (λ p (acc : list _Node),
          match dict_get g p with
          | Some v => Ok (acc ++ [v])
          | None => Raise (AttributeError "depth")
          end) ps [];
  Ok (sorted (λ v, st (name v)) false vs).

(** The [for v in sorted(...)] loop of [_explore]; [b] is the index of
    the tuple [b] in [result]. *)
Fixpoint explore_loop (rec : _Node → state → exc state) (b : nat)
    (vs : list _Node) (d : Z) (s : state) : exc state :=
  match vs with
  | [] => Ok s
  | v :: vs' =>
      let n0 := length (result s) in
      s1 ← rec v s;
      let n1 := length (result s1) in
      let s2 := mk_state (depth s1)
                  (extend b (replicate (Z.to_nat d) "_" ++ [name v]) (result s1)) in
      explore_loop rec b vs' (Z.of_nat n1 - Z.of_nat n0 - 1)%Z s2
  end.

(** The local [_explore] of [_best_order]. *)
Fixpoint _best_order_explore (fuel : nat) (u : _Node) (s : state) : exc state :=
  match fuel with
  | O => Raise RecursionError
  | S fuel' =>
      if (depth s (name u) <? 0)%Z then Ok s
      else if negb (truthy (parents u)) then
        Ok (mk_state (<[name u := (-1)%Z]> (depth s))
                     (result s ++ [(name u, parents u)]))
      else
        let b := length (result s) in
        let s1 := mk_state (<[name u := (-1)%Z]> (depth s))
                           (result s ++ [(name u, Some [])]) in
        vs ← sorted_parents (default [] (parents u)) (depth s1);
        explore_loop (_best_order_explore fuel') b vs 0 s1
  end.
End best_order.

Definition _best_order (g : dict deps) : exc (list entry) :=
  '(g', st) ← _depth g;
  s ← for_each (_best_order_explore g' limit)
        (sorted (λ v, st (name v)) true (values g'))
        (mk_state st []);
  Ok (reverse (result s)).
End resolver.


(** ** [_prob_chain_rule_flatten], [_flatten] and [_unflatten] *)

(** [dict(pairs)]: a later pair overrides an earlier one with the same key. *)
Definition py_dict {V} (pairs : list (string * V)) : gmap string V :=
  foldl (λ m kv, <[kv.1 := kv.2]> m) ∅ pairs.

(** [xs[-n:]] for [n > 0]: the whole of [xs] when it is shorter than [n]. *)
Definition last_slice {V} (n : nat) (xs : list V) : list V :=
  drop (length xs - n) xs.

(** [zip] applied to the entries of [g] and unpacked into two names: with
    no entry there is nothing to unpack. *)
Definition unzip_pairs {A B} (g : list (A * B)) : exc (list A * list B) :=
  match g with
  | [] => Raise ValueError
  | _ => Ok (g.*1, g.*2)
  end.

Fixpoint map_exc {A B} (f : A → exc B) (l : list A) : exc (list B) :=
  match l with
  | [] => Ok []
  | x :: l' => y ← f x; ys ← map_exc f l'; Ok (y :: ys)
  end.

Section makers.
(** The producers of the model, the values they are fed, and the
    dependency extractor: [None] when
    [distribution_util.is_distribution_instance(v)], otherwise
    [joint_distribution_sequential._get_required_args(v)]. *)
Variable maker : Type.
Variable value : Type.
Variable required_args : maker → deps.

(** What a wrapped producer does with the outputs [xs] produced so far:
    hand back the instance, or call the producer with keyword arguments. *)
Inductive invocation :=
  | Instance_ (dist_fn : maker)
  | Call (dist_fn : maker) (kwargs : gmap string value).

(** The keyword arguments built by [_fn]. *)
Definition _fn_kwargs (args : list string) (xs : list value) : gmap string value :=
  let kwargs := py_dict (zip args (reverse (last_slice (length args) xs))) in
  delete "_" kwargs.

Definition _make (dist_fn : maker) (args : deps) (xs : list value) : invocation :=
  match args with
  | None => Instance_ dist_fn
  | Some [] => Call dist_fn ∅
  | Some args => Call dist_fn (_fn_kwargs args xs)
  end.

Record flattened := mk_flattened {
  dist_fn : list (option maker);
  dist_fn_wrapped : list (list value → invocation);
  dist_fn_args : list deps;
  dist_fn_name : list string
}.

Definition _prob_chain_rule_flatten (limit : nat) (named_makers : dict maker)
    : exc flattened :=
  let g := map (λ kv, (kv.1, required_args kv.2)) named_makers in
  g ← _best_order limit g;
  '(dist_fn_name, dist_fn_args) ← unzip_pairs g;
  dist_fn_wrapped ← map_exc (λ e : entry,
      match dict_get named_makers e.1 with
      | Some m => Ok (_make m e.2)
      | None => Raise (KeyError e.1)
      end) g;
  let dist_fn := map (dict_get named_makers) dist_fn_name in
  Ok (mk_flattened dist_fn dist_fn_wrapped dist_fn_args dist_fn_name).
End makers.

Section flatten.
Variable value : Type.

(** A Python object: [None] or some other value. *)
Inductive object :=
  | PyNone
  | Obj (v : value).

(** The call [f(n, None)] of a value [f] on a name [n]: what [xs.get(n,
    None)] comes to when the attribute [get] of [xs] is the value [f] and
    not the method of a mapping. A value that cannot be called so raises
    [TypeError]. *)
Variable call : value → string → exc object.

(** The named structures handed to [_flatten]: a mapping, whose [get] is
    the method of [dict]; or an instance of a namedtuple class, with the
    values of its fields and the other attributes its class gives it
    ([count], [index], [_asdict], ...). [_unflatten] builds one of the
    type of the original model. *)
Inductive structure :=
  | Mapping (items : gmap string object)
  | Record_ (fields : gmap string object) (attrs : gmap string object).

(** A namedtuple class: its fields, each with its default when it has
    one, and the attributes its instances have besides the fields. *)
Record record_class := mk_class {
  class_fields : list (string * option object);
  class_attrs : gmap string object
}.

(** [type(self._original_model)]: [dict], or a namedtuple class. *)
Inductive model_type :=
  | DictType
  | RecordType (cls : record_class).

(** [getattr(xs, n)] on an instance of a namedtuple class: the field [n],
    else the attribute [n] of the class; [None] stands for
    [AttributeError]. [hasattr(xs, n)] tells whether there is one. *)
Definition getattr (fields attrs : gmap string object) (n : string) : option object :=
  match fields !! n with
  | Some x => Some x
  | None => attrs !! n
  end.

(** [f(n, None)]; [None] is not callable. *)
Definition call_object (f : object) (n : string) : exc object :=
  match f with
  | PyNone => Raise TypeError
  | Obj v => call v n
  end.

(** The defaults of the fields of a class. *)
Definition field_defaults (cls : record_class) : gmap string object :=
  list_to_map (omap (λ fd, (fd.1,.) <$> fd.2) (class_fields cls)).

(** The call of a namedtuple class with the keyword arguments [kwargs], as
    [_unflatten] makes it: every keyword must be a field,
    and every field must get a value, from the keywords or else from its
    default. *)
Definition new_record (cls : record_class) (kwargs : gmap string object)
    : exc structure :=
  let fields := kwargs ∪ field_defaults cls in
  if decide (dom kwargs ⊆@{gset string} list_to_set (class_fields cls).*1 ∧
             Forall (λ f, is_Some (fields !! f)) (class_fields cls).*1)
  then Ok (Record_ fields (class_attrs cls))
  else Raise TypeError.

Section self.
Variable _dist_fn_name : list string.
Variable _original_model : model_type.

Definition _flatten (xs : option structure) : exc (list object) :=
  match xs with
  | None => Ok (replicate (length _dist_fn_name) PyNone)
  | Some (Mapping items) =>
      Ok (map (λ n, default PyNone (items !! n)) _dist_fn_name)
  | Some (Record_ fields attrs) =>
      match getattr fields attrs "get" with
      | Some get => map_exc (call_object get) _dist_fn_name
      | None =>
          map_exc (λ n, match getattr fields attrs n with
                        | Some x => Ok x
                        | None => Raise (AttributeError n)
                        end) _dist_fn_name
      end
  end.

Definition _unflatten (xs : list object) : exc structure :=
  let kwargs := py_dict (zip _dist_fn_name xs) in
  match _original_model with
  | DictType => Ok (Mapping kwargs)
  | RecordType cls => new_record cls kwargs
  end.
End self.

(** The value a structure holds under a name: an item of a mapping, a
    field of a record. *)
Definition item (x : structure) (n : string) : option object :=
  match x with
  | Mapping items => items !! n
  | Record_ fields _ => fields !! n
  end.
End flatten.

Arguments PyNone {value}.
Arguments Obj {value} v.
Arguments Mapping {value} items.
Arguments Record_ {value} fields attrs.
Arguments DictType {value}.
Arguments RecordType {value} cls.
Arguments mk_class {value} class_fields class_attrs.
Arguments class_fields {value} r.
Arguments class_attrs {value} r.
Arguments getattr {value} fields attrs n : simpl never.
Arguments field_defaults {value} cls.
Arguments item {value} x n.
Arguments Instance_ {maker value} dist_fn.
Arguments Call {maker value} dist_fn kwargs.

(** ** Well-formed input collections *)

(** A Python dict has each key once. *)
Definition is_dict {V} (d : dict V) : Prop := NoDup (keys d).

(** Every declared dependency is a key of the collection. *)
Definition closed (g : dict deps) : Prop :=
  Forall (λ kv, Forall (λ p, p ∈ keys g) (default [] kv.2)) g.

(** The collection is acyclic: some [rank] strictly decreases from every
    node to each of its declared parents. *)
Definition ranked (rank : string → nat) (g : dict deps) : Prop :=
  Forall (λ kv, Forall (λ p, rank p < rank kv.1) (default [] kv.2)) g.

(** The recursion limit allows chains as long as the ranks. *)
Definition within (limit : nat) (rank : string → nat) (g : dict deps) : Prop :=
  Forall (λ kv, rank kv.1 < limit) g.

(** Some producer declares a dependency that is not a key. *)
Definition dangling (g : dict deps) : Prop :=
  Exists (λ kv, Exists (λ p, p ∉ keys g) (default [] kv.2)) g.

(** The depth the specification assigns to a node with parents [ps], given
    the depths [st] of the others. *)
Definition depth_of (st : depths) (ps : deps) : Z :=
  if truthy ps then (1 + py_max (st <$> default [] ps))%Z else 0%Z.

Global Instance is_dict_dec {V} (d : dict V) : Decision (is_dict d).
Proof. unfold is_dict. apply _. Defined.
Global Instance closed_dec g : Decision (closed g).
Proof. unfold closed. apply _. Defined.
Global Instance ranked_dec rank g : Decision (ranked rank g).
Proof. unfold ranked. apply _. Defined.
Global Instance within_dec limit rank g : Decision (within limit rank g).
Proof. unfold within. apply _. Defined.
Global Instance dangling_dec g : Decision (dangling g).
Proof. unfold dangling. apply _. Defined.

(** Decides a closed instance of the predicates above by evaluation. *)
Ltac by_computation := apply (bool_decide_unpack _); vm_compute; exact I.

(** ** Properties of the resolved order *)

(** Every parent of a node stands before the node. *)
Definition topologically_valid (g : dict deps) (res : list entry) : Prop :=
  ∀ k ps p i j, dict_get g k = Some (Some ps) → p ∈ ps →
    res.*1 !! i = Some k → res.*1 !! j = Some p → j < i.

(** A name at index [j] of the offsets of position [i] is the name of the
    entry at position [i - 1 - j]. *)
Definition offsets_address_parents (res : list entry) : Prop :=
  ∀ i k o j p, res !! i = Some (k, Some o) → o !! j = Some p → p ≠ "_" →
    j < i ∧ res.*1 !! (i - 1 - j) = Some p.

(** [padded o vs]: the offsets [o] are the names [vs], in that order, with
    placeholders put in between. *)
Inductive padded : list string → list string → Prop :=
  | padded_nil : padded [] []
  | padded_name v o vs : padded o vs → padded (v :: o) (v :: vs)
  | padded_gap o vs : padded o vs → padded ("_" :: o) vs.

(** What the entry of a node must be once its exploration is over. *)
Definition entry_ok (g : dict deps) (e : entry) : Prop :=
  ∃ ps, dict_get g e.1 = Some ps ∧
    if truthy ps then ∃ o vs, e.2 = Some o ∧ padded o vs ∧ vs ≡ₚ default [] ps
    else e.2 = ps.

(** The type of the original model can be called with the resolved names
    as keywords: every name is a field of the class, and a field that is
    not among the names has a default. *)
Definition accepts {value} (ty : model_type value) (names : list string) : Prop :=
  match ty with
  | DictType => True
  | RecordType cls =>
      Forall (λ n, n ∈ (class_fields cls).*1) names ∧
      Forall (λ fd, is_Some fd.2 ∨ fd.1 ∈ names) (class_fields cls)
  end.

(** The instances of the type are read by attribute: the class has no
    field and no other attribute named [get]. *)
Definition without_get {value} (ty : model_type value) : Prop :=
  match ty with
  | DictType => True
  | RecordType cls => ("get" ∉ (class_fields cls).*1) ∧ class_attrs cls !! "get" = None
  end.

(** ** Invariants of the two explorations *)

Section invariants.
Variables (g : dict deps) (rank : string → nat).

(** A node whose depth is set has the depth of the specification, and
    the depths of its parents are set. *)
Definition depth_inv (st : depths) : Prop :=
  ∀ k ps, dict_get g k = Some ps →
    (st k = -1 ∨ 0 ≤ st k)%Z ∧
    ((0 ≤ st k)%Z → st k = depth_of st ps ∧ Forall (λ p, 0 ≤ st p)%Z (default [] ps)).

(** Depths that are set are not touched again. *)
Definition memo (st st' : depths) : Prop := ∀ k, (0 ≤ st k)%Z → st' k = st k.

(** What a call of [_explore] on the node [k] achieves from the store [st]. *)
Definition explore_post (k : string) (st : depths) (r : exc (Z * depths)) : Prop :=
  ∃ d st', r = Ok (d, st') ∧ depth_inv st' ∧ st' k = d ∧ (0 ≤ d)%Z ∧
    memo st st' ∧ (∀ k', st' k' ≠ st k' → rank k' ≤ rank k).

(** [p] is declared as a dependency by some producer. *)
Definition declared (p : string) : Prop := ∃ k ps, (k, Some ps) ∈ g ∧ p ∈ ps.

(** The failures of resolution that the structure of the collection
    causes: the recursion limit is exceeded, or the lookup of a declared
    name that is not a key fails. *)
Definition structural (e : exn) : Prop :=
  e = RecursionError ∨ ∃ p, e = KeyError p ∧ (p ∉ keys g) ∧ declared p.

(** The parents of a node whose depth is set are keys. *)
Definition closed_inv (st : depths) : Prop :=
  ∀ k ps, dict_get g k = Some ps → (0 ≤ st k)%Z →
    Forall (λ p, p ∈ keys g) (default [] ps).

(** Depths that are set stay set. *)
Definition grows (st st' : depths) : Prop := ∀ k, (0 ≤ st k)%Z → (0 ≤ st' k)%Z.

(** What a call of the [_explore] of [_depth] on [v] comes to, on any
    collection. *)
Definition explore_outcome (v : _Node) (st : depths) (r : exc (Z * depths)) : Prop :=
  match r with
  | Ok (_, st') => closed_inv st' ∧ grows st st' ∧ (0 ≤ st' (name v))%Z
  | Raise e => structural e
  end.

(** The names emitted so far are exactly the visited nodes, each once. *)
Definition pack_inv (s : state) : Prop :=
  NoDup (result s).*1 ∧
  (∀ k, k ∈ (result s).*1 → k ∈ keys g ∧ (depth s k < 0)%Z) ∧
  (∀ k, k ∈ keys g → (depth s k < 0)%Z → k ∈ (result s).*1).

(** Visited nodes stay visited. *)
Definition visited_kept (s s' : state) : Prop :=
  ∀ k, (depth s k < 0)%Z → (depth s' k < 0)%Z.

(** What a call of the [_explore] of [_best_order] on the node [u]
    achieves: [u] is visited, and the entries appended to [result] are
    final. *)
Definition pack_post (u : string) (s : state) (r : exc state) : Prop :=
  ∃ s', r = Ok s' ∧ pack_inv s' ∧ (depth s' u < 0)%Z ∧ visited_kept s s' ∧
    ∃ ext, result s' = result s ++ ext ∧ Forall (entry_ok g) ext.
End invariants.

(** The slot of a name: the value under it, [None] when there is none. *)
Definition slot {value} (x : structure value) (n : string) : object value :=
  default PyNone (item x n).

(** A record is read by attribute, and has every name as a field. *)
Definition readable {value} (names : list string) (x : structure value) : Prop :=
  match x with
  | Mapping _ => True
  | Record_ fields attrs =>
      getattr fields attrs "get" = None ∧ Forall (λ n, is_Some (fields !! n)) names
  end.

Global Instance accepts_dec {value} (ty : model_type value) names :
  Decision (accepts ty names).
Proof. destruct ty; simpl; apply _. Defined.
Global Instance without_get_dec {value} (ty : model_type value) :
  Decision (without_get ty).
Proof. destruct ty; simpl; apply _. Defined.

(** ** Example structures *)

(** Values for the examples: numbers, and the attributes of a class. None
    of them can be called with a name and [None]: a number is not
    callable, [count] takes one argument, [index] wants a number as its
    second one, [_asdict] takes none, [_replace] keywords only, [_make]
    one iterable, and [_fields] and [_field_defaults] are no functions. *)
Inductive sample :=
  | Num (n : nat)
  | ClassAttr (attr : string).

Definition call_sample (f : sample) (n : string) : exc (object sample) :=
  Raise TypeError.

(** The attributes a namedtuple class gives its instances besides the
    fields (the double-underscore names aside). *)
Definition namedtuple_attrs : gmap string (object sample) :=
  list_to_map ((λ a, (a, Obj (ClassAttr a))) <$>
    ["count"; "index"; "_asdict"; "_fields"; "_field_defaults"; "_make"; "_replace"]).

(** [namedtuple('Model', ['a', 'b'])], and
    [namedtuple('Model', ['a', 'b'], defaults=[0])]. *)
Definition class_ab : record_class sample :=
  mk_class [("a", None); ("b", None)] namedtuple_attrs.

Definition class_ab_default : record_class sample :=
  mk_class [("a", None); ("b", Some (Obj (Num 0)))] namedtuple_attrs.

(** ** Example collections *)

(** The model of the class documentation. *)
Definition g_doc : dict deps :=
  [("e", None); ("g", Some ["e"]); ("n", None); ("m", Some ["n"; "g"]); ("x", Some ["m"])].

(** Its depths, as a rank. *)
Definition rank_doc (k : string) : nat :=
  if decide (k = "x") then 3 else if decide (k = "m") then 2
  else if decide (k = "g") then 1 else 0.

(** One parent shared by two children. *)
Definition g_shared : dict deps :=
  [("a", None); ("x", Some ["a"]); ("y", Some ["a"])].

(** Two parents, each with a parent of its own. *)
Definition g_pad : dict deps :=
  [("q1", None); ("p1", Some ["q1"]); ("q2", None); ("p2", Some ["q2"]);
   ("u", Some ["p1"; "p2"])].

(** The same model as a collection of producers, each one standing for
    its own dependency declaration (the extractor is then [id]). *)
Definition makers_doc : dict deps := g_doc.

(** ** Cycles and sharing *)

(** Every node of [C] declares a dependency on a node of [C]: the nodes of
    [C] lie on cycles of the collection, or lead into one. *)
Definition trapped (C : list string) (g : dict deps) : Prop :=
  Forall (λ k, Exists (λ p, p ∈ C) (default [] (default None (dict_get g k)))) C.

Global Instance trapped_dec C g : Decision (trapped C g).
Proof. unfold trapped. apply _. Defined.

(** A collection with a cycle. *)
Definition g_cycle : dict deps :=
  [("r", None); ("a", Some ["r"; "b"]); ("b", Some ["a"])].

(** An exploration that returns leaves the nodes of [C] unset, and was not
    started on one of them. *)
Definition avoids (C : list string) (v : _Node) (r : exc (Z * depths)) : Prop :=
  match r with
  | Ok (_, st') => (∀ k, k ∈ C → (st' k < 0)%Z) ∧ name v ∉ C
  | Raise _ => True
  end.

(** No name is declared as a dependency twice: no producer is a parent of
    two producers, and no producer declares the same name twice. *)
Definition unshared (g : dict deps) : Prop :=
  NoDup (mjoin ((λ kv, default [] kv.2) <$> g)).

Global Instance unshared_dec g : Decision (unshared g).
Proof. unfold unshared. apply _. Defined.

(** A visited parent has its child visited. *)
Definition down_closed (g : dict deps) (s : state) : Prop :=
  ∀ k ps p, dict_get g k = Some ps → p ∈ default [] ps →
    (depth s p < 0)%Z → (depth s k < 0)%Z.

(** The children of [u] are visited. *)
Definition children_visited (g : dict deps) (u : string) (s : state) : Prop :=
  ∀ c cps, dict_get g c = Some cps → u ∈ default [] cps → (depth s c < 0)%Z.

(** A node visited between [s] and [s'] is one of [roots], or a parent of
    a node visited between [s] and [s']. *)
Definition reached_from (g : dict deps) (roots : list string) (s s' : state) : Prop :=
  ∀ w, (depth s' w < 0)%Z → ¬ (depth s w < 0)%Z →
    w ∈ roots ∨
    ∃ c cps, dict_get g c = Some cps ∧ w ∈ default [] cps ∧
      (depth s' c < 0)%Z ∧ ¬ (depth s c < 0)%Z.

(** In the list [r], in the order of the appends: the names in the offsets
    of the entry at index [a] stand where the offsets say, [j + 1] places
    after the entry for the name at index [j], and every parent of the
    node stands after the entry. *)
Definition addressed (g : dict deps) (r : list entry) (a : nat) : Prop :=
  ∀ k o, r !! a = Some (k, o) →
    (∀ j p, default [] o !! j = Some p → p ≠ "_" → r.*1 !! (a + 1 + j) = Some p) ∧
    (∀ ps p, dict_get g k = Some ps → p ∈ default [] ps →
       ∃ a', a < a' ∧ r.*1 !! a' = Some p).

Definition self_contained (g : dict deps) (r : list entry) : Prop :=
  ∀ a, addressed g r a.

(** What the exploration of an unvisited node [u] achieves when no parent
    is shared: it appends a block that starts with the entry of [u] and
    holds all the parents its entries refer to. *)
Definition tree_post (g : dict deps) (u : string) (s : state) (r : exc state) : Prop :=
  ∃ s', r = Ok s' ∧ down_closed g s' ∧ visited_kept s s' ∧ (depth s' u < 0)%Z ∧
    reached_from g [u] s s' ∧
    ∃ a rest, result s' = result s ++ (u, a) :: rest ∧
      self_contained g ((u, a) :: rest).

(** A collection without shared parents. *)
Definition g_tree : dict deps :=
  [("q1", None); ("p1", Some ["q1"]); ("q2", Some []); ("p2", Some ["q2"]);
   ("u", Some ["p1"; "p2"]); ("w", None)].

Definition rank_tree (k : string) : nat :=
  if decide (k = "u") then 2 else if decide (k = "p1") then 1
  else if decide (k = "p2") then 1 else 0.

(** An unvisited node still has the depth [_depth] gave it. *)
Definition undisturbed (D : depths) (s : state) : Prop :=
  ∀ k, ¬ (depth s k < 0)%Z → depth s k = D k.

(** [c] is visited and its parent [q] is not. *)
Definition dangling_edge (g : dict deps) (s : state) (c q : string) : Prop :=
  ∃ cps, dict_get g c = Some cps ∧ q ∈ default [] cps ∧
    (depth s c < 0)%Z ∧ ¬ (depth s q < 0)%Z.

Definition bounded_edges (g : dict deps) (D : depths) (s : state) (b : Z) : Prop :=
  ∀ c q, dangling_edge g s c q → (b ≤ D q)%Z.

Definition no_new_edges (g : dict deps) (s s' : state) : Prop :=
  ∀ c q, dangling_edge g s' c q → dangling_edge g s c q.

(** [x] stands before [y] in [names]. *)
Definition before_in (names : list string) (x y : string) : Prop :=
  ∃ a b, names !! a = Some x ∧ names !! b = Some y ∧ a < b.

(** Once two children of a node are visited, the node was appended before
    one of them. *)
Definition shared_seen (g : dict deps) (s : state) : Prop :=
  ∀ p c1 cps1 c2 cps2, c1 ≠ c2 →
    dict_get g c1 = Some cps1 → p ∈ default [] cps1 →
    dict_get g c2 = Some cps2 → p ∈ default [] cps2 →
    (depth s c1 < 0)%Z → (depth s c2 < 0)%Z →
    before_in (result s).*1 p c1 ∨ before_in (result s).*1 p c2.

(** What a call of the [_explore] of [_best_order] on the node [u] keeps,
    whether parents are shared or not. *)
Definition share_post (g : dict deps) (D : depths) (u : string) (s : state)
    (r : exc state) : Prop :=
  ∃ s', r = Ok s' ∧ pack_inv g s' ∧ undisturbed D s' ∧ shared_seen g s' ∧
    visited_kept s s' ∧ (depth s' u < 0)%Z ∧ no_new_edges g s s' ∧
    ∃ ext, result s' = result s ++ ext.

(** A parent shared by two children, among nodes of their own. *)
Definition g_diamond : dict deps :=
  [("a", Some []); ("b", Some ["a"]); ("c", Some ["b"; "a"]); ("d", None)].

Definition rank_diamond (k : string) : nat :=
  if decide (k = "c") then 2 else if decide (k = "b") then 1 else 0.

(** ** The order of the visits *)

(** No producer declares [w] as a dependency. *)
Definition childless (g : dict deps) (w : string) : Prop :=
  Forall (λ kv, w ∉ default [] kv.2) g.

Global Instance childless_dec g w : Decision (childless g w).
Proof. unfold childless. apply _. Defined.

(** The [depth] attribute of [p] once the nodes [visited] are marked:
    [-1] for one of them, otherwise the depth that [_depth] gave [p]. *)
Definition depth_at (D : depths) (visited : list string) (p : string) : Z :=
  if decide (p ∈ visited) then (-1)%Z else D p.

(** [vs] is [ps] by ascending [key], and names of equal key stand in [vs]
    in the order they have in [ps]. *)
Definition stably_sorted (key : string → Z) (ps vs : list string) : Prop :=
  vs ≡ₚ ps ∧ StronglySorted (λ p q, key p ≤ key q)%Z vs ∧
  ∀ d, filter (λ p, key p = d) vs = filter (λ p, key p = d) ps.

(** In the list [r] of the appended entries, the offsets of the entry at
    index [a] are the declared arguments of its node between placeholders,
    by ascending [depth] attribute at the time the entry was appended,
    arguments of equal attribute in the order of their declaration. *)
Definition settled (g : dict deps) (D : depths) (r : list entry) (a : nat) : Prop :=
  ∀ k o ps, r !! a = Some (k, Some o) → dict_get g k = Some (Some ps) →
    ∃ vs, padded o vs ∧ stably_sorted (depth_at D (take a r.*1)) ps vs.

(** The state of [_best_order] between two steps: the names emitted are
    the visited nodes, a visited node carries the mark [-1], and every
    other node the depth [D] that [_depth] gave it. *)
Definition packing (g : dict deps) (D : depths) (s : state) : Prop :=
  pack_inv g s ∧ (∀ k, ¬ (depth s k < 0)%Z → depth s k = D k) ∧
  (∀ k, k ∈ (result s).*1 → depth s k = (-1)%Z).

(** What a call of the [_explore] of [_best_order] on the node [u]
    appends: nothing when [u] is visited; otherwise the entry of [u],
    followed by entries of nodes that are parents of some node; the
    offsets of the appended entries are settled. *)
Definition order_post (g : dict deps) (D : depths) (u : string) (s : state)
    (r : exc state) : Prop :=
  ∃ s' ext, r = Ok s' ∧ result s' = result s ++ ext ∧
    packing g D s' ∧ visited_kept s s' ∧ (depth s' u < 0)%Z ∧
    (∀ a, length (result s) ≤ a → settled g D (result s') a) ∧
    ((depth s u < 0)%Z → ext = []) ∧
    (¬ (depth s u < 0)%Z →
       ∃ e rest, ext = (u, e) :: rest ∧ Forall (λ w, ¬ childless g w) rest.*1).

(** The tie-break among the parents of a node in the words of the
    specification: of two parents of equal depth, the one visited first,
    which is the one that stands first in the offsets, was inserted
    first. *)
Definition parent_ties_by_insertion (g : dict deps) (D : depths) (res : list entry)
    : Prop :=
  ∀ k o p q, (k, Some o) ∈ res → before_in o p q → p ≠ "_" → q ≠ "_" →
    D p = D q → before_in (keys g) p q.

(** Two parents of equal depth, declared in the order opposite to their
    insertion. *)
Definition g_ties : dict deps :=
  [("a", None); ("b", None); ("c", Some ["b"; "a"])].

(** A cycle, one node of which also declares a name that is no key. *)
Definition g_lost : dict deps :=
  [("a", Some ["b"]); ("b", Some ["a"; "zz"])].

(** ** Generic facts: exceptions, dicts, [sorted] *)

Lemma exc_bind_ok {A B} (m : exc A) (f : A → exc B) (b : B) :
  m ≫= f = Ok b → ∃ a, m = Ok a ∧ f a = Ok b.
Proof. destruct m as [a|e]; simpl; intros H; [eauto | discriminate]. Qed.

Lemma map_exc_ok {A B} (f : A → exc B) (h : A → B) (l : list A) :
  (∀ x, x ∈ l → f x = Ok (h x)) → map_exc f l = Ok (map h l).
Proof.
  induction l as [|x l IH]; intros Hf; [done|].
  simpl. rewrite Hf by left. simpl. rewrite IH; [done|].
  intros y Hy. apply Hf. by right.
Qed.

Lemma map_exc_length {A B} (f : A → exc B) (l : list A) (ys : list B) :
  map_exc f l = Ok ys → length ys = length l.
Proof.
  revert ys. induction l as [|x l IH]; intros ys; simpl.
  - by intros [= <-].
  - intros (y & _ & H)%exc_bind_ok. apply exc_bind_ok in H as (ys' & Hys & [= <-]).
    simpl. f_equal. by apply IH.
Qed.

Section sorted_facts.
Context {A : Type} (key : A → Z).

Lemma insert_by_perm x l : insert_by key x l ≡ₚ x :: l.
Proof.
  induction l as [|y l IH]; [done|]. simpl.
  destruct (key x <=? key y)%Z; [done|].
  rewrite IH. apply Permutation_swap.
Qed.

(** An element only moves past elements with another key. *)
Lemma insert_by_filter (P : A → Prop) `{!∀ x, Decision (P x)} x l :
  (∀ y, P x → P y → key x = key y) →
  filter P (insert_by key x l) = filter P (x :: l).
Proof.
  intros HP. induction l as [|y l IH]; [done|]. simpl.
  destruct (key x <=? key y)%Z eqn:E; [done|].
  rewrite (filter_cons _ y), (filter_cons _ x (y :: l)), (filter_cons _ y l).
  rewrite IH, (filter_cons _ x l).
  destruct (decide (P y)) as [Py|Py], (decide (P x)) as [Px|Px]; try done.
  specialize (HP y Px Py). lia.
Qed.

Lemma insert_by_sorted x l :
  StronglySorted (λ a b, key a ≤ key b)%Z l →
  StronglySorted (λ a b, key a ≤ key b)%Z (insert_by key x l).
Proof.
  induction 1 as [|y l Hl IH Hy]; simpl; [repeat constructor|].
  destruct (key x <=? key y)%Z eqn:E.
  - constructor; [by constructor|]. constructor; [lia|].
    eapply Forall_impl; [done|]. simpl. lia.
  - constructor; [done|]. rewrite insert_by_perm. constructor; [lia | done].
Qed.
End sorted_facts.

Lemma sorted_perm {A} (key : A → Z) reverse l : sorted key reverse l ≡ₚ l.
Proof.
  unfold sorted. destruct reverse; induction l as [|x l IH]; simpl; try done;
    by rewrite insert_by_perm, IH.
Qed.

(** Stability: the elements with a given key keep their order. *)
Lemma sorted_stable {A} (key : A → Z) reverse l (d : Z) :
  filter (λ x, key x = d) (sorted key reverse l) = filter (λ x, key x = d) l.
Proof.
  unfold sorted. destruct reverse; induction l as [|x l IH]; simpl; try done.
  - rewrite insert_by_filter by (intros; lia). by rewrite !filter_cons, IH.
  - rewrite insert_by_filter by (intros; lia). by rewrite !filter_cons, IH.
Qed.

Lemma sorted_ascending {A} (key : A → Z) l :
  StronglySorted (λ a b, key a ≤ key b)%Z (sorted key false l).
Proof.
  unfold sorted. induction l as [|x l IH]; simpl; [constructor|].
  by apply insert_by_sorted.
Qed.

Lemma sorted_descending {A} (key : A → Z) l :
  StronglySorted (λ a b, key b ≤ key a)%Z (sorted key true l).
Proof.
  cut (StronglySorted (λ a b, - key a ≤ - key b)%Z (sorted key true l)).
  { induction 1 as [|y l' _ IH' Hy]; constructor; [done|].
    eapply Forall_impl; [exact Hy|]. simpl. lia. }
  unfold sorted. induction l as [|x l IH]; simpl; [constructor|].
  by apply (insert_by_sorted (λ x, - key x)%Z).
Qed.

Section dict_facts.
Context {V : Type}.
Implicit Types (d : dict V) (k : string) (v : V).

Lemma dict_get_Some d k v : dict_get d k = Some v → (k, v) ∈ d.
Proof.
  induction d as [|[k' v'] d IH]; simpl; [done|].
  destruct (decide (k' = k)) as [->|]; [intros [= ->]; left | right; auto].
Qed.

Lemma dict_get_None d k : dict_get d k = None ↔ k ∉ keys d.
Proof.
  unfold keys. induction d as [|[k' v'] d IH]; simpl.
  - split; [intros _; apply not_elem_of_nil | done].
  - rewrite not_elem_of_cons.
    destruct (decide (k' = k)) as [->|]; [|rewrite IH]; intuition congruence.
Qed.

Lemma dict_get_is_Some d k : is_Some (dict_get d k) ↔ k ∈ keys d.
Proof.
  destruct (dict_get d k) eqn:E.
  - split; [intros _ | eauto].
    apply dict_get_Some in E. unfold keys. apply list_elem_of_fmap. by exists (k, v).
  - apply dict_get_None in E. split; [by intros [? ?] | done].
Qed.

Lemma dict_get_elem_of d k v : NoDup (keys d) → (k, v) ∈ d → dict_get d k = Some v.
Proof.
  unfold keys. induction d as [|[k' v'] d IH]; simpl; [by intros _ ?%elem_of_nil|].
  intros [Hk Hd]%NoDup_cons [[= <- <-]|Hin]%elem_of_cons.
  - by rewrite decide_True.
  - rewrite decide_False; [auto|]. intros ->. apply Hk.
    apply list_elem_of_fmap. by exists (k, v).
Qed.
End dict_facts.

Lemma dict_get_annotate g k : dict_get (annotate g) k = mk_Node k <$> dict_get g k.
Proof.
  induction g as [|[k' ps] g IH]; simpl; [done|].
  destruct (decide (k' = k)) as [->|]; [done | apply IH].
Qed.

Lemma values_annotate g :
  values (annotate g) = map (λ kv, mk_Node kv.1 kv.2) g.
Proof. unfold values, annotate. by rewrite <-list_fmap_compose. Qed.

Lemma foldl_max_ge (x : Z) (l : list Z) : (x ≤ foldl Z.max x l)%Z.
Proof.
  revert x. induction l as [|y l IH]; intros x; simpl; [lia|].
  specialize (IH (Z.max x y)). lia.
Qed.

Lemma py_max_sentinel (ds : list Z) :
  ds ≠ [] → Forall (λ d, 0 ≤ d)%Z ds →
  py_max ((-1)%Z :: ds) = py_max ds ∧ (0 ≤ py_max ds)%Z.
Proof.
  destruct ds as [|d ds]; [done|]. intros _ [Hd _]%Forall_cons.
  unfold py_max. simpl.
  replace (Z.max (-1) d) with d by lia. split; [done|].
  pose proof (foldl_max_ge d ds). lia.
Qed.

(** ** The depth annotator *)

Lemma depth_of_ext (st st' : depths) (ps : deps) :
  Forall (λ p, st' p = st p) (default [] ps) → depth_of st' ps = depth_of st ps.
Proof.
  intros H. unfold depth_of. destruct (truthy ps); [|done].
  do 2 f_equal. apply Forall_fmap_ext_1. exact H.
Qed.

Section depth_correct.
Variables (g : dict deps) (rank : string → nat).
Hypothesis Hclosed : closed g.
Hypothesis Hranked : ranked rank g.

Lemma parent_facts k ps p :
  dict_get g k = Some ps → p ∈ default [] ps → p ∈ keys g ∧ rank p < rank k.
Proof.
  intros Hk%dict_get_Some Hp. unfold closed, ranked in *.
  rewrite Forall_forall in Hclosed, Hranked.
  specialize (Hclosed _ Hk). specialize (Hranked _ Hk). simpl in *.
  rewrite Forall_forall in Hclosed, Hranked. auto.
Qed.

Lemma depth_inv_init : depth_inv g init_depths.
Proof. intros k ps _. unfold init_depths. split; [by left | lia]. Qed.

Lemma depth_inv_insert st k ps d :
  dict_get g k = Some ps → depth_inv g st → (st k < 0)%Z → (0 ≤ d)%Z →
  d = depth_of st ps → Forall (λ p, 0 ≤ st p)%Z (default [] ps) →
  depth_inv g (<[k:=d]> st).
Proof.
  intros Hk Hinv Hneg Hd Heq Hps k' ps' Hk'.
  assert (∀ qs, Forall (λ p, 0 ≤ st p)%Z qs →
            Forall (λ p, <[k:=d]> st p = st p) qs) as Hsame.
  { intros qs Hqs. eapply Forall_impl; [exact Hqs|]. intros p Hp. simpl in *.
    apply fn_lookup_insert_ne. intros ->. lia. }
  destruct (decide (k = k')) as [<-|Hne].
  - rewrite fn_lookup_insert. assert (ps' = ps) as -> by congruence.
    split; [by right|]. intros _. split.
    + rewrite (depth_of_ext st) by auto. done.
    + eapply Forall_impl; [exact Hps|]. intros p Hp. simpl in *.
      rewrite fn_lookup_insert_ne; [done|]. intros ->. lia.
  - rewrite fn_lookup_insert_ne by done.
    destruct (Hinv k' ps' Hk') as [Hrange Hset]. split; [done|].
    intros Hpos. destruct (Hset Hpos) as [Hdep Hall]. split.
    + rewrite (depth_of_ext st) by auto. done.
    + eapply Forall_impl; [exact Hall|]. intros p Hp. simpl in *.
      rewrite fn_lookup_insert_ne; [done|]. intros ->. lia.
Qed.

Lemma explore_parents_spec fuel R ps st :
  (∀ k ps st, dict_get g k = Some ps → rank k < fuel → depth_inv g st →
     explore_post g rank k st (_depth_explore (annotate g) fuel (mk_Node k ps) st)) →
  Forall (λ p, p ∈ keys g ∧ rank p < fuel ∧ rank p < R) ps →
  depth_inv g st →
  ∃ ds st',
    explore_parents (annotate g) (_depth_explore (annotate g) fuel) ps st = Ok (ds, st') ∧
    depth_inv g st' ∧ ds = st' <$> ps ∧ Forall (λ d, 0 ≤ d)%Z ds ∧
    memo st st' ∧ (∀ k', st' k' ≠ st k' → rank k' < R).
Proof.
  intros Hrec Hps. revert st.
  induction Hps as [|p ps (Hp & Hfuel & HR) _ IH]; intros st Hinv.
  { exists [], st. simpl. split_and!; try done. }
  apply dict_get_is_Some in Hp as [pps Hpps].
  simpl. rewrite dict_get_annotate, Hpps. simpl.
  destruct (Hrec p pps st Hpps Hfuel Hinv)
    as (d & st1 & -> & Hinv1 & Hd & Hpos & Hmemo1 & Hch1).
  simpl. destruct (IH st1 Hinv1) as (ds & st2 & -> & Hinv2 & Hds & Hall & Hmemo2 & Hch2).
  exists (d :: ds), st2. simpl. split_and!; try done.
  - rewrite Hds. f_equal. rewrite Hmemo2; [done | lia].
  - by constructor.
  - intros k Hk. rewrite Hmemo2; [auto|]. rewrite Hmemo1; done.
  - intros k Hk. destruct (decide (st1 k = st k)) as [E|E].
    + apply Hch2. congruence.
    + specialize (Hch1 k E). lia.
Qed.

Lemma depth_explore_spec fuel k ps st :
  dict_get g k = Some ps → rank k < fuel → depth_inv g st →
  explore_post g rank k st (_depth_explore (annotate g) fuel (mk_Node k ps) st).
Proof.
  revert k ps st. induction fuel as [|fuel IH]; intros k ps st Hk Hfuel Hinv; [lia|].
  simpl. destruct (st k <? 0)%Z eqn:Hneg.
  2:{ exists (st k), st. split_and!; try done. lia. }
  apply Z.ltb_lt in Hneg.
  destruct (truthy ps) eqn:Htruthy.
  2:{ exists 0%Z, (<[k:=0%Z]> st). split_and!.
      - done.
      - apply (depth_inv_insert st k ps); try done.
        + unfold depth_of. by rewrite Htruthy.
        + destruct ps as [[|??]|]; try done; constructor.
      - apply fn_lookup_insert.
      - done.
      - intros k' Hk'. apply fn_lookup_insert_ne. intros ->. lia.
      - intros k' Hk'. destruct (decide (k = k')) as [->|]; [done|].
        by rewrite fn_lookup_insert_ne in Hk'. }
  destruct (explore_parents_spec fuel (rank k) (default [] ps) st IH)
    as (ds & st1 & -> & Hinv1 & Hds & Hall & Hmemo & Hch); [|done|].
  { apply Forall_forall. intros p Hp.
    destruct (parent_facts k ps p Hk Hp). split_and!; [done | lia | done]. }
  cbn [mbind exc_bind].
  assert (ds ≠ []) as Hne.
  { rewrite Hds. destruct ps as [[|??]|]; done. }
  destruct (py_max_sentinel ds Hne Hall) as [-> Hmax].
  assert (st1 k = st k) as Hk1.
  { destruct (decide (st1 k = st k)) as [|E]; [done|]. specialize (Hch k E). lia. }
  assert (Forall (λ p, 0 ≤ st1 p)%Z (default [] ps)) as Hparents.
  { rewrite Hds, Forall_fmap in Hall. exact Hall. }
  exists (1 + py_max ds)%Z, (<[k:=(1 + py_max ds)%Z]> st1). split_and!.
  - done.
  - apply (depth_inv_insert st1 k ps); try done; [lia.. |].
    unfold depth_of. by rewrite Htruthy, Hds.
  - apply fn_lookup_insert.
  - lia.
  - intros k' Hk'. rewrite fn_lookup_insert_ne; [auto|]. intros ->. lia.
  - intros k' Hk'. destruct (decide (k = k')) as [->|Hkk]; [done|].
    rewrite fn_lookup_insert_ne in Hk' by done. specialize (Hch k' Hk'). lia.
Qed.

Hypothesis Hdict : is_dict g.

Lemma depth_loop_spec limit (l : list (string * deps)) st :
  Forall (λ kv, kv ∈ g ∧ rank kv.1 < limit) l → depth_inv g st →
  ∃ st', for_each (λ v st, '(_, st') ← _depth_explore (annotate g) limit v st; Ok st')
           (map (λ kv, mk_Node kv.1 kv.2) l) st = Ok st' ∧
    depth_inv g st' ∧ memo st st' ∧ Forall (λ kv, 0 ≤ st' kv.1)%Z l.
Proof.
  intros Hl. revert st. induction Hl as [|[k ps] l [Hin Hlim] _ IH]; intros st Hinv.
  { exists st. by split_and!. }
  simpl in *. apply dict_get_elem_of in Hin; [|done].
  destruct (depth_explore_spec limit k ps st Hin Hlim Hinv)
    as (d & st1 & -> & Hinv1 & Hd & Hpos & Hmemo1 & _).
  simpl. destruct (IH st1 Hinv1) as (st2 & -> & Hinv2 & Hmemo2 & Hall).
  exists st2. split_and!; try done.
  - intros k' Hk'. rewrite Hmemo2; [auto|]. by rewrite Hmemo1.
  - constructor; [|done]. simpl. rewrite Hmemo2; lia.
Qed.

Lemma depth_total limit :
  within limit rank g →
  ∃ st, _depth limit g = Ok (annotate g, st) ∧ depth_inv g st ∧
    ∀ k, k ∈ keys g → (0 ≤ st k)%Z.
Proof.
  intros Hwithin. unfold _depth. rewrite values_annotate.
  destruct (depth_loop_spec limit g init_depths) as (st & -> & Hinv & _ & Hall).
  - unfold within in Hwithin. rewrite Forall_forall in Hwithin |- *. auto.
  - apply depth_inv_init.
  - exists st. split_and!; [done..|]. intros k [[k' ps] [-> Hin]]%list_elem_of_fmap.
    rewrite Forall_forall in Hall. apply (Hall _ Hin).
Qed.
End depth_correct.

(** ** Failures of the depth annotator *)

Section depth_errors.
Variable g : dict deps.

Lemma closed_inv_insert st k ps d :
  dict_get g k = Some ps → closed_inv g st →
  Forall (λ p, p ∈ keys g) (default [] ps) → closed_inv g (<[k:=d]> st).
Proof.
  intros Hk Hinv Hps k' ps' Hk'. destruct (decide (k = k')) as [<-|Hne].
  - intros _. congruence.
  - rewrite fn_lookup_insert_ne by done. by apply Hinv.
Qed.

Lemma grows_insert st st1 k d :
  grows st st1 → (0 ≤ d)%Z → grows st (<[k:=d]> st1).
Proof.
  intros Hg Hd k' Hk'. destruct (decide (k = k')) as [<-|Hne].
  - by rewrite fn_lookup_insert.
  - rewrite fn_lookup_insert_ne by done. by apply Hg.
Qed.

Lemma explore_parents_outcome rec ps st :
  (∀ v st, dict_get (annotate g) (name v) = Some v → closed_inv g st →
     explore_outcome g v st (rec v st)) →
  Forall (declared g) ps → closed_inv g st →
  match explore_parents (annotate g) rec ps st with
  | Ok (_, st') => closed_inv g st' ∧ grows st st' ∧ Forall (λ p, p ∈ keys g) ps
  | Raise e => structural g e
  end.
Proof.
  intros Hrec Hps. revert st. induction Hps as [|p ps Hp _ IH]; intros st Hinv.
  { simpl. split_and!; [done | by intros ? | constructor]. }
  simpl. rewrite dict_get_annotate. destruct (dict_get g p) as [pps|] eqn:Hpps; simpl.
  2:{ right. exists p. split_and!; [done| by apply dict_get_None |done]. }
  specialize (Hrec (mk_Node p pps) st). simpl in Hrec.
  rewrite dict_get_annotate, Hpps in Hrec. specialize (Hrec eq_refl Hinv).
  destruct (_ : exc (Z * depths)) as [[d st1]|e] in Hrec |- *; simpl; [|done].
  destruct Hrec as (Hinv1 & Hg1 & _). specialize (IH st1 Hinv1).
  destruct (explore_parents _ _ ps st1) as [[ds st2]|e]; simpl; [|done].
  destruct IH as (Hinv2 & Hg2 & Hall). split_and!; [done| |].
  - intros k Hk. auto.
  - constructor; [|done]. apply dict_get_is_Some. eauto.
Qed.

Lemma depth_explore_outcome fuel v st :
  dict_get (annotate g) (name v) = Some v → closed_inv g st →
  explore_outcome g v st (_depth_explore (annotate g) fuel v st).
Proof.
  revert v st. induction fuel as [|fuel IH]; intros [k ps] st Hv Hinv; simpl.
  { by left. }
  simpl in Hv. rewrite dict_get_annotate in Hv.
  destruct (dict_get g k) as [ps'|] eqn:Hk; [|done].
  injection Hv as ->.
  destruct (st k <? 0)%Z eqn:Hneg.
  2:{ apply Z.ltb_ge in Hneg. simpl. split_and!; [done | by intros ? | done]. }
  destruct (truthy ps) eqn:Htruthy.
  2:{ simpl. split_and!.
      - apply (closed_inv_insert st k ps); [done..|].
        destruct ps as [[|??]|]; try done; constructor.
      - apply grows_insert; [by intros ? | done].
      - by rewrite fn_lookup_insert. }
  pose proof (explore_parents_outcome (_depth_explore (annotate g) fuel)
                (default [] ps) st IH) as Hps.
  destruct (explore_parents _ _ _ st) as [[ds st1]|e]; simpl.
  - destruct Hps as (Hinv1 & Hg1 & Hall); [|done|].
    { apply Forall_forall. intros p Hp. exists k.
      destruct ps as [l|]; [|by apply elem_of_nil in Hp].
      exists l. split; [by apply dict_get_Some | done]. }
    assert (0 ≤ 1 + py_max ((-1)%Z :: ds))%Z as Hd.
    { unfold py_max. pose proof (foldl_max_ge (-1) ds). lia. }
    split_and!.
    + by apply (closed_inv_insert st1 k ps).
    + by apply grows_insert.
    + by rewrite fn_lookup_insert.
  - apply Hps; [|done].
    apply Forall_forall. intros p Hp. exists k.
    destruct ps as [l|]; [|by apply elem_of_nil in Hp].
    exists l. split; [by apply dict_get_Some | done].
Qed.

Hypothesis Hdict : is_dict g.

Lemma depth_loop_outcome limit (l : list (string * deps)) st :
  Forall (λ kv, kv ∈ g) l → closed_inv g st →
  match for_each (λ v st, '(_, st') ← _depth_explore (annotate g) limit v st; Ok st')
          (map (λ kv, mk_Node kv.1 kv.2) l) st with
  | Ok st' => closed_inv g st' ∧ grows st st' ∧ Forall (λ kv, 0 ≤ st' kv.1)%Z l
  | Raise e => structural g e
  end.
Proof.
  intros Hl. revert st. induction Hl as [|[k ps] l Hin _ IH]; intros st Hinv; simpl.
  { split_and!; [done | by intros ? | constructor]. }
  apply dict_get_elem_of in Hin; [|done].
  pose proof (depth_explore_outcome limit (mk_Node k ps) st) as Hv. simpl in Hv.
  rewrite dict_get_annotate, Hin in Hv. specialize (Hv eq_refl Hinv).
  destruct (_depth_explore _ _ _ st) as [[d st1]|e]; simpl; [|done].
  destruct Hv as (Hinv1 & Hg1 & Hk). specialize (IH st1 Hinv1).
  destruct (for_each _ _ st1) as [st2|e]; [|done].
  destruct IH as (Hinv2 & Hg2 & Hall). split_and!; [done| |].
  - intros k' Hk'. auto.
  - constructor; [|done]. simpl. auto.
Qed.

Lemma depth_outcome limit :
  match _depth limit g with
  | Ok _ => closed g
  | Raise e => structural g e
  end.
Proof.
  unfold _depth. rewrite values_annotate.
  pose proof (depth_loop_outcome limit g init_depths) as H.
  destruct (for_each _ _ init_depths) as [st|e]; simpl.
  - destruct H as (Hinv & _ & Hall).
    + by apply Forall_forall.
    + intros k ps _. unfold init_depths. lia.
    + unfold closed. rewrite Forall_forall in Hall |- *. intros [k ps] Hin.
      apply (Hinv k ps); [by apply dict_get_elem_of | by apply (Hall _ Hin)].
  - apply H; [by apply Forall_forall|].
    intros k ps _. unfold init_depths. lia.
Qed.
End depth_errors.

Lemma dangling_not_closed g : dangling g → ¬ closed g.
Proof.
  unfold dangling, closed. rewrite Exists_exists, Forall_forall.
  intros (kv & Hin & Hex) Hall. specialize (Hall kv Hin).
  rewrite Exists_exists in Hex. rewrite Forall_forall in Hall.
  destruct Hex as (p & Hp & Hno). by apply Hno, Hall.
Qed.

(** ** The order packer *)

Lemma padded_app o1 vs1 o2 vs2 :
  padded o1 vs1 → padded o2 vs2 → padded (o1 ++ o2) (vs1 ++ vs2).
Proof. induction 1; intros H2; simpl; [done | by constructor; auto..]. Qed.

Lemma padded_slot n v : padded (replicate n "_" ++ [v]) [v].
Proof. induction n as [|n IH]; simpl; repeat constructor. exact IH. Qed.

Lemma padded_length o vs : padded o vs → length vs ≤ length o.
Proof. induction 1; simpl; lia. Qed.

Lemma padded_filter o vs a :
  a ≠ "_" → padded o vs → filter (λ x, x = a) o = filter (λ x, x = a) vs.
Proof.
  intros Ha. induction 1 as [|v o vs _ IH|o vs _ IH]; [done| |].
  - by rewrite !filter_cons, IH.
  - rewrite filter_cons, decide_False by congruence. exact IH.
Qed.

Lemma extend_names i xs (r : list entry) : (extend i xs r).*1 = r.*1.
Proof.
  unfold extend. revert i. induction r as [|e r IH]; intros [|i]; simpl; try done.
  f_equal. apply IH.
Qed.

Lemma extend_at (pre : list entry) nm o rest xs :
  extend (length pre) xs (pre ++ (nm, Some o) :: rest) = pre ++ (nm, Some (o ++ xs)) :: rest.
Proof.
  unfold extend. rewrite <-(Nat.add_0_r (length pre)) at 1.
  by rewrite alter_app_r.
Qed.

Section packer.
Variables (g : dict deps) (rank : string → nat).
Hypothesis Hclosed : closed g.
Hypothesis Hranked : ranked rank g.

Lemma pack_inv_visit s k a :
  k ∈ keys g → (0 ≤ depth s k)%Z → pack_inv g s →
  pack_inv g (mk_state (<[k:=(-1)%Z]> (depth s)) (result s ++ [(k, a)])).
Proof.
  intros Hk Hpos (Hnd & Hin & Hout). unfold pack_inv. simpl. rewrite fmap_app. simpl.
  split_and!.
  - apply NoDup_app. split_and!; [done | | apply NoDup_singleton].
    intros k' Hk' ->%list_elem_of_singleton. destruct (Hin _ Hk'). lia.
  - intros k' [Hk'| ->%list_elem_of_singleton]%elem_of_app.
    + destruct (Hin _ Hk'). split; [done|].
      destruct (decide (k = k')) as [<-|]; [by rewrite fn_lookup_insert|].
      by rewrite fn_lookup_insert_ne.
    + by rewrite fn_lookup_insert.
  - intros k' Hk' Hneg. apply elem_of_app.
    destruct (decide (k = k')) as [<-|]; [right; by apply list_elem_of_singleton|].
    rewrite fn_lookup_insert_ne in Hneg by done. left. auto.
Qed.

Lemma pack_inv_extend s b xs :
  pack_inv g s → pack_inv g (mk_state (depth s) (extend b xs (result s))).
Proof. unfold pack_inv. simpl. by rewrite extend_names. Qed.

Lemma sorted_parents_nodes ps acc :
  Forall (λ p, p ∈ keys g) ps →
  ∃ vs,
    for_each (λ p (acc : list _Node),
        match dict_get (annotate g) p with
        | Some v => Ok (acc ++ [v])
        | None => Raise (AttributeError "depth")
        end) ps acc = Ok (acc ++ vs) ∧
    name <$> vs = ps ∧
    Forall (λ v, dict_get g (name v) = Some (parents v)) vs.
Proof.
  intros Hps. revert acc. induction Hps as [|p ps Hp _ IH]; intros acc.
  { exists []. by rewrite app_nil_r. }
  apply dict_get_is_Some in Hp as [pps Hpps].
  simpl. rewrite dict_get_annotate, Hpps. simpl.
  destruct (IH (acc ++ [mk_Node p pps])) as (vs & -> & Hnames & Hall).
  exists (mk_Node p pps :: vs). rewrite <-app_assoc. simpl. split_and!; [done| |].
  - f_equal. exact Hnames.
  - by constructor.
Qed.

Lemma sorted_parents_spec ps st :
  Forall (λ p, p ∈ keys g) ps →
  ∃ vs, sorted_parents (annotate g) ps st = Ok vs ∧ name <$> vs ≡ₚ ps ∧
    Forall (λ v, dict_get g (name v) = Some (parents v)) vs.
Proof.
  intros Hps. unfold sorted_parents.
  destruct (sorted_parents_nodes ps [] Hps) as (vs & -> & Hnames & Hall).
  simpl. eexists. split_and!; [done| |].
  - rewrite sorted_perm. by rewrite Hnames.
  - by rewrite sorted_perm.
Qed.

Lemma explore_loop_spec fuel vs :
  (∀ k ps s, dict_get g k = Some ps → rank k < fuel → pack_inv g s →
     pack_post g k s (_best_order_explore (annotate g) fuel (mk_Node k ps) s)) →
  Forall (λ v, dict_get g (name v) = Some (parents v) ∧ rank (name v) < fuel) vs →
  ∀ d s pre nm o mid,
    result s = pre ++ (nm, Some o) :: mid → pack_inv g s →
    ∃ s', explore_loop (_best_order_explore (annotate g) fuel) (length pre) vs d s = Ok s' ∧
      pack_inv g s' ∧ visited_kept s s' ∧
      ∃ o' mid', result s' = pre ++ (nm, Some (o ++ o')) :: mid ++ mid' ∧
        padded o' (name <$> vs) ∧ Forall (entry_ok g) mid'.
Proof.
  intros Hrec Hvs. induction Hvs as [|[k ps] vs [Hk Hfuel] _ IH];
    intros d s pre nm o mid Hres Hinv.
  { exists s. split_and!; [done | done | by intros ? |]. exists [], [].
    rewrite !app_nil_r. split_and!; [done | constructor | constructor]. }
  simpl in Hk, Hfuel. simpl.
  destruct (Hrec k ps s Hk Hfuel Hinv) as (s1 & -> & Hinv1 & _ & Hkept1 & ext & Hres1 & Hext).
  simpl. rewrite Hres1, Hres. rewrite <-app_assoc. simpl. rewrite extend_at.
  set (xs := replicate _ "_" ++ [k]).
  set (s2 := mk_state _ _).
  destruct (IH (Z.of_nat (length (pre ++ (nm, Some o) :: mid ++ ext))
                - Z.of_nat (length (pre ++ (nm, Some o) :: mid)) - 1)%Z
               s2 pre nm (o ++ xs) (mid ++ ext))
    as (s' & Hloop & Hinv' & Hkept' & o' & mid' & Hres' & Hpad & Hmid'); [done| |].
  { pose proof (pack_inv_extend s1 (length pre) xs Hinv1) as H.
    rewrite Hres1, Hres, <-app_assoc in H. simpl in H. rewrite extend_at in H. exact H. }
  exists s'. split_and!; [exact Hloop | done | |].
  - intros k' Hk'. apply Hkept'. simpl. by apply Hkept1.
  - exists (xs ++ o'), (ext ++ mid'). rewrite Hres', <-!app_assoc. split_and!; [done| |].
    + apply (padded_app xs [k]); [apply padded_slot | done].
    + apply Forall_app. done.
Qed.

Lemma best_order_explore_spec fuel k ps s :
  dict_get g k = Some ps → rank k < fuel → pack_inv g s →
  pack_post g k s (_best_order_explore (annotate g) fuel (mk_Node k ps) s).
Proof.
  revert k ps s. induction fuel as [|fuel IH]; intros k ps s Hk Hfuel Hinv; [lia|].
  assert (k ∈ keys g) as Hkey by (apply dict_get_is_Some; eauto).
  simpl. destruct (depth s k <? 0)%Z eqn:Hneg.
  { apply Z.ltb_lt in Hneg. exists s. split_and!; [done.. | by intros ? |].
    exists []. by rewrite app_nil_r. }
  apply Z.ltb_ge in Hneg.
  assert (visited_kept s (mk_state (<[k:=(-1)%Z]> (depth s)) (result s ++ [(k, Some [])])))
    as Hkept1.
  { intros k' Hk'. simpl. destruct (decide (k = k')) as [<-|]; [lia|].
    by rewrite fn_lookup_insert_ne. }
  destruct (truthy ps) eqn:Htruthy; simpl.
  2:{ eexists. split_and!; [done | by apply pack_inv_visit | | |]; simpl.
      - by rewrite fn_lookup_insert.
      - exact Hkept1.
      - eexists. split; [done|]. repeat constructor. exists ps. simpl.
        by rewrite Htruthy. }
  destruct (sorted_parents_spec (default [] ps) (<[k:=(-1)%Z]> (depth s)))
    as (vs & -> & Hnames & Hnodes).
  { apply Forall_forall. intros p Hp. by destruct (parent_facts g rank Hclosed Hranked k ps p). }
  simpl.
  destruct (explore_loop_spec fuel vs IH) with (d := 0%Z)
    (s := mk_state (<[k:=(-1)%Z]> (depth s)) (result s ++ [(k, Some [])]))
    (pre := result s) (nm := k) (o := @nil string) (mid := @nil entry)
    as (s' & -> & Hinv' & Hkept' & o' & mid' & Hres' & Hpad & Hmid'); [|done|..].
  { apply Forall_forall. intros v Hv. rewrite Forall_forall in Hnodes.
    split; [by apply Hnodes|].
    assert (name v ∈ default [] ps) as Hp.
    { rewrite <-Hnames. by apply list_elem_of_fmap_2. }
    destruct (parent_facts g rank Hclosed Hranked k ps _ Hk Hp). lia. }
  { by apply pack_inv_visit. }
  exists s'. split_and!; [done | done | | |].
  - apply Hkept'. simpl. by rewrite fn_lookup_insert.
  - intros k' Hk'. by apply Hkept', Hkept1.
  - eexists. split; [exact Hres'|]. simpl. constructor; [|done].
    exists ps. simpl. rewrite Htruthy. split; [done|].
    exists o', (name <$> vs). by split_and!.
Qed.
End packer.

Section best_order_correct.
Variables (g : dict deps) (rank : string → nat).
Hypothesis Hdict : is_dict g.
Hypothesis Hclosed : closed g.
Hypothesis Hranked : ranked rank g.

Lemma best_order_loop_spec limit (vs : list _Node) s :
  Forall (λ v, dict_get g (name v) = Some (parents v) ∧ rank (name v) < limit) vs →
  pack_inv g s → Forall (entry_ok g) (result s) →
  ∃ s', for_each (_best_order_explore (annotate g) limit) vs s = Ok s' ∧
    pack_inv g s' ∧ visited_kept s s' ∧
    Forall (λ v, depth s' (name v) < 0)%Z vs ∧ Forall (entry_ok g) (result s').
Proof.
  intros Hvs. revert s. induction Hvs as [|[k ps] vs [Hk Hlim] _ IH]; intros s Hinv Hres.
  { exists s. split_and!; [done | done | by intros ? | constructor | done]. }
  simpl in Hk, Hlim. simpl.
  destruct (best_order_explore_spec g rank Hclosed Hranked limit k ps s Hk Hlim Hinv)
    as (s1 & -> & Hinv1 & Hvis & Hkept1 & ext & Hres1 & Hext).
  simpl. destruct (IH s1 Hinv1) as (s' & -> & Hinv' & Hkept' & Hall & Hres').
  { rewrite Hres1. apply Forall_app. done. }
  exists s'. split_and!; [done | done | | | done].
  - intros k' Hk'. by apply Hkept', Hkept1.
  - constructor; [|done]. simpl. by apply Hkept'.
Qed.

(** On an acyclic collection whose chains fit the recursion limit,
    [_best_order] returns; it emits every key once, and the entry of a
    node lists its parents, in some order, between placeholders. *)
Lemma best_order_total limit :
  within limit rank g →
  ∃ res, _best_order limit g = Ok res ∧ res.*1 ≡ₚ keys g ∧ Forall (entry_ok g) res.
Proof.
  intros Hwithin. unfold _best_order.
  destruct (depth_total g rank Hclosed Hranked Hdict limit Hwithin) as (st & -> & _ & Hpos).
  cbn [mbind exc_bind].
  destruct (best_order_loop_spec limit
              (sorted (λ v, st (name v)) true (values (annotate g)))
              (mk_state st []))
    as (s' & -> & (Hnd & Hin & Hout) & _ & Hall & Hres).
  { rewrite sorted_perm, values_annotate. apply Forall_fmap, Forall_forall.
    intros [k ps] Hkv. simpl. split; [by apply dict_get_elem_of|].
    unfold within in Hwithin. rewrite Forall_forall in Hwithin. apply (Hwithin _ Hkv). }
  { split_and!; simpl; [constructor | by intros ? ?%elem_of_nil |].
    intros k Hk Hneg. specialize (Hpos k Hk). lia. }
  { constructor. }
  cbn [mbind exc_bind]. eexists. split_and!; [done | |].
  - rewrite fmap_reverse, reverse_Permutation.
    apply NoDup_Permutation; [done | done |]. intros k. split; [by intros [? _]%Hin|].
    intros Hk. apply Hout; [done|].
    rewrite sorted_perm, values_annotate, Forall_fmap, Forall_forall in Hall.
    apply list_elem_of_fmap in Hk as ([k' ps] & -> & Hkv). apply (Hall _ Hkv).
  - by rewrite reverse_Permutation.
Qed.
End best_order_correct.

(** ** The properties stated by the specification *)

(** C1, on the code: with a parent shared by two children, the second
    child is placed before the parent. *)
Theorem C1_shared_parent_out_of_order :
  is_dict g_shared ∧ closed g_shared ∧
  ranked (λ k, if decide (k = "a") then 0 else 1) g_shared ∧
  _best_order 10 g_shared = Ok [("y", Some ["a"]); ("a", None); ("x", Some ["a"])] ∧
  ¬ topologically_valid g_shared [("y", Some ["a"]); ("a", None); ("x", Some ["a"])].
Proof.
  split_and!; [by_computation.. | vm_compute; reflexivity |].
  intros H. specialize (H "y" ["a"] "a" 0 1). simpl in H.
  assert (1 < 0) as Hlt; [|lia].
  apply H; [reflexivity | by left | reflexivity | reflexivity].
Qed.

(** C2, on the code: with a parent shared by two children, the offsets of
    the second child name a parent that no earlier position holds, and
    its wrapper, run on the outputs produced before it, gets no value for
    its argument. *)
Theorem C2_shared_parent_offsets_miss :
  _best_order 10 g_shared = Ok [("y", Some ["a"]); ("a", None); ("x", Some ["a"])] ∧
  ¬ offsets_address_parents [("y", Some ["a"]); ("a", None); ("x", Some ["a"])] ∧
  ∀ dist_fn : unit, _make unit nat dist_fn (Some ["a"]) [] = Call dist_fn ∅.
Proof.
  split_and!; [vm_compute; reflexivity | | done].
  intros H. destruct (H 0 "y" ["a"] 0 "a") as [Hlt _]; [done | done | done | lia].
Qed.

(** C3, as stated: the node [u] declares two arguments, and its offsets
    list has three slots. *)
Lemma C3_padding_adds_slots :
  dict_get g_pad "u" = Some (Some ["p1"; "p2"]) ∧
  _best_order 10 g_pad =
    Ok [("q2", None); ("p2", Some ["q2"]); ("q1", None); ("p1", Some ["q1"]);
        ("u", Some ["p1"; "_"; "p2"])] ∧
  length ["p1"; "_"; "p2"] ≠ length ["p1"; "p2"].
Proof. split_and!; [reflexivity | vm_compute; reflexivity | simpl; lia]. Qed.

(** C3, amended: the offsets of a node with declared arguments are its
    declared arguments, in some order, with placeholders put in between.
    So there are at least as many slots as declared arguments, and every
    name other than the placeholder occurs in the offsets as often as
    among the declared arguments, that is once for arguments with
    distinct names. *)
Theorem C3_offsets_hold_the_arguments limit rank (g : dict deps) :
  is_dict g → closed g → ranked rank g → within limit rank g →
  ∃ res, _best_order limit g = Ok res ∧
    ∀ k ps, (k, Some ps) ∈ g → ps ≠ [] →
      ∃ o vs, (k, Some o) ∈ res ∧ padded o vs ∧ vs ≡ₚ ps ∧
        length ps ≤ length o ∧
        ∀ a, a ≠ "_" →
          length (filter (λ x, x = a) o) = length (filter (λ x, x = a) ps).
Proof.
  intros Hdict Hclosed Hranked Hwithin.
  destruct (best_order_total g rank Hdict Hclosed Hranked limit Hwithin)
    as (res & Hres & Hperm & Hall).
  exists res. split; [done|]. intros k ps Hin Hne.
  assert (k ∈ res.*1) as ([k' a] & -> & He)%list_elem_of_fmap.
  { rewrite Hperm. apply list_elem_of_fmap. by exists (k, Some ps). }
  rewrite Forall_forall in Hall. destruct (Hall _ He) as (ps' & Hk & Hentry).
  simpl in *. rewrite (dict_get_elem_of g k' (Some ps) Hdict Hin) in Hk.
  injection Hk as <-.
  destruct ps as [|p ps]; [done|]. simpl in Hentry.
  destruct Hentry as (o & vs & -> & Hpad & Hvs).
  exists o, vs. split_and!; [done..| |].
  - rewrite <-Hvs. by apply padded_length.
  - intros a Ha. by rewrite (padded_filter o vs a Ha Hpad), Hvs.
Qed.

Lemma C3_offsets_hold_the_arguments_witness :
  ∃ res, _best_order 10 g_pad = Ok res ∧
    ∀ k ps, (k, Some ps) ∈ g_pad → ps ≠ [] →
      ∃ o vs, (k, Some o) ∈ res ∧ padded o vs ∧ vs ≡ₚ ps ∧
        length ps ≤ length o ∧
        ∀ a, a ≠ "_" →
          length (filter (λ x, x = a) o) = length (filter (λ x, x = a) ps).
Proof.
  apply (C3_offsets_hold_the_arguments 10
           (λ k, if decide (k = "u") then 2
                 else if decide (k = "p1") then 1
                 else if decide (k = "p2") then 1 else 0) g_pad); by_computation.
Defined.

Lemma fmap_filter_name (P : string → Prop) `{!∀ p, Decision (P p)}
    `{!∀ v : _Node, Decision (P (name v))} (vs : list _Node) :
  name <$> filter (λ v, P (name v)) vs = filter P (name <$> vs).
Proof.
  induction vs as [|v vs IH]; [done|]. rewrite fmap_cons, !filter_cons.
  do 2 destruct (decide _); try done; rewrite ?fmap_cons; by rewrite IH.
Qed.

Lemma sorted_parents_inv g ps st vs :
  sorted_parents (annotate g) ps st = Ok vs →
  ∃ nodes, vs = sorted (λ v, st (name v)) false nodes ∧ name <$> nodes = ps.
Proof.
  unfold sorted_parents. intros (nodes & Hnodes & [= <-])%exc_bind_ok.
  exists nodes. split; [done|].
  cut (∀ acc r, for_each (λ p (acc : list _Node),
          match dict_get (annotate g) p with
          | Some v => Ok (acc ++ [v])
          | None => Raise (AttributeError "depth")
          end) ps acc = Ok r → ∃ new, r = acc ++ new ∧ name <$> new = ps).
  { intros H. by destruct (H [] nodes Hnodes) as (new & -> & ?). }
  clear. induction ps as [|p ps IH]; intros acc r; simpl.
  { intros [= <-]. exists []. by rewrite app_nil_r. }
  rewrite dict_get_annotate. destruct (dict_get g p) as [pps|]; simpl; [|done].
  intros (new & -> & Hnew)%IH. exists (mk_Node p pps :: new).
  rewrite <-app_assoc. split; [done|]. simpl. by f_equal.
Qed.

(** ** The order of the visits *)

Lemma insert_by_fmap {A B} (f : A → B) (key : B → Z) x l :
  insert_by key (f x) (f <$> l) = f <$> insert_by (λ a, key (f a)) x l.
Proof.
  induction l as [|y l IH]; [done|]. rewrite fmap_cons. simpl.
  destruct (key (f x) <=? key (f y))%Z; [done|]. by rewrite IH.
Qed.

Lemma sorted_fmap {A B} (f : A → B) (key : B → Z) reverse l :
  sorted key reverse (f <$> l) = f <$> sorted (λ a, key (f a)) reverse l.
Proof.
  unfold sorted. destruct reverse; induction l as [|x l IH]; try done;
    rewrite fmap_cons; simpl; rewrite IH.
  - apply (insert_by_fmap f (λ b, - key b)%Z).
  - apply insert_by_fmap.
Qed.

Lemma insert_by_ext {A} (key key' : A → Z) x l :
  key x = key' x → Forall (λ y, key y = key' y) l →
  insert_by key x l = insert_by key' x l.
Proof.
  intros Hx. induction 1 as [|y l Hy _ IH]; simpl; [done|]. by rewrite Hx, Hy, IH.
Qed.

Lemma sorted_ext {A} (key key' : A → Z) l :
  Forall (λ y, key y = key' y) l → sorted key false l = sorted key' false l.
Proof.
  unfold sorted. induction 1 as [|x l Hx Hl IH]; simpl; [done|].
  rewrite IH. apply insert_by_ext; [done|].
  pose proof (sorted_perm key' false l) as Hperm. unfold sorted in Hperm.
  by rewrite Hperm.
Qed.

Lemma filter_ext_in {A} (P Q : A → Prop) `{!∀ x, Decision (P x), !∀ x, Decision (Q x)}
    (l : list A) :
  Forall (λ x, P x ↔ Q x) l → filter P l = filter Q l.
Proof.
  induction 1 as [|x l Hx _ IH]; [done|]. rewrite !filter_cons, IH.
  by apply decide_ext.
Qed.

Lemma filter_none {A} (P : A → Prop) `{!∀ x, Decision (P x)} (l : list A) :
  Forall (λ x, ¬ P x) l → filter P l = [].
Proof.
  induction 1 as [|x l Hx _ IH]; [done|]. by rewrite filter_cons, decide_False.
Qed.

Lemma before_in_split (l : list string) x y :
  before_in l x y ↔ ∃ l1 l2, l = l1 ++ l2 ∧ x ∈ l1 ∧ y ∈ l2.
Proof.
  split.
  - intros (a & b & Ha & Hb & Hlt). exists (take b l), (drop b l). split_and!.
    + by rewrite take_drop.
    + apply (list_elem_of_lookup_2 _ a). by rewrite lookup_take_lt.
    + apply (list_elem_of_lookup_2 _ 0). by rewrite lookup_drop, Nat.add_0_r.
  - intros (l1 & l2 & -> & [a Ha]%list_elem_of_lookup_1 & [b Hb]%list_elem_of_lookup_1).
    exists a, (length l1 + b). split_and!.
    + by apply lookup_app_l_Some.
    + rewrite lookup_app_r by lia. rewrite <-Hb. f_equal. lia.
    + apply lookup_lt_Some in Ha. lia.
Qed.

Lemma before_in_reverse l x y : before_in l x y → before_in (reverse l) y x.
Proof.
  intros (l1 & l2 & -> & Hx & Hy)%before_in_split. apply before_in_split.
  exists (reverse l2), (reverse l1). rewrite reverse_app, !elem_of_reverse. done.
Qed.

Lemma before_in_filter (P : string → Prop) `{!∀ x, Decision (P x)} l x y :
  P x → P y → before_in l x y → before_in (filter P l) x y.
Proof.
  intros Px Py (l1 & l2 & -> & Hx & Hy)%before_in_split. apply before_in_split.
  exists (filter P l1), (filter P l2). rewrite filter_app, !list_elem_of_filter. done.
Qed.

Lemma before_in_unfilter (P : string → Prop) `{!∀ x, Decision (P x)} l x y :
  before_in (filter P l) x y → before_in l x y.
Proof.
  intros (m1 & m2 & Heq & Hx & Hy)%before_in_split. apply before_in_split.
  revert m1 Heq Hx. induction l as [|a l IH]; intros m1 Heq Hx.
  { symmetry in Heq. apply app_eq_nil in Heq as [-> _]. by apply elem_of_nil in Hx. }
  rewrite filter_cons in Heq. destruct (decide (P a)).
  - destruct m1 as [|b m1]; [by apply elem_of_nil in Hx|].
    simpl in Heq. injection Heq as <- Heq. apply elem_of_cons in Hx as [->|Hx].
    + exists [a], l. split_and!; [done | by left |].
      assert (y ∈ filter P l) as Hin by (rewrite Heq; apply elem_of_app; by right).
      by apply list_elem_of_filter in Hin as [_ ?].
    + destruct (IH m1 Heq Hx) as (l1 & l2 & -> & ? & ?).
      exists (a :: l1), l2. split_and!; [done | by right | done].
  - destruct (IH m1 Heq Hx) as (l1 & l2 & -> & ? & ?).
    exists (a :: l1), l2. split_and!; [done | by right | done].
Qed.

Lemma before_in_total (l : list string) x y :
  x ∈ l → y ∈ l → x ≠ y → before_in l x y ∨ before_in l y x.
Proof.
  intros (l1 & l2 & ->)%list_elem_of_split Hy Hne.
  apply elem_of_app in Hy as [Hy|Hy].
  - right. apply before_in_split. exists l1, (x :: l2). split_and!; [done | done | by left].
  - apply elem_of_cons in Hy as [->|Hy]; [done|]. left. apply before_in_split.
    exists (l1 ++ [x]), l2. rewrite <-app_assoc. split_and!; [done | | done].
    apply elem_of_app. right. by apply list_elem_of_singleton.
Qed.

(** In a list sorted by descending key, a name of larger key stands first,
    and of two names of equal key the one that stood first. *)
Lemma sorted_before (key : string → Z) (l : list string) x y :
  x ∈ l → y ∈ l →
  (key y < key x)%Z ∨ (key y = key x ∧ before_in l x y) →
  before_in (sorted key true l) x y.
Proof.
  intros Hx Hy [Hlt|[Heq Hb]].
  - destruct (before_in_total (sorted key true l) x y) as [H|H];
      [by rewrite sorted_perm | by rewrite sorted_perm | intros ->; lia | done |].
    apply before_in_split in H as (l1 & l2 & Hl & H1 & H2).
    pose proof (sorted_descending key l) as Hs. rewrite Hl in Hs.
    pose proof (StronglySorted_app_1_elem_of _ _ _ _ _ Hs H1 H2) as Hle.
    simpl in Hle. lia.
  - apply (before_in_unfilter (λ p, key p = key x)). rewrite sorted_stable.
    by apply before_in_filter.
Qed.

Lemma names_annotate g : name <$> values (annotate g) = keys g.
Proof.
  rewrite values_annotate. unfold keys. induction g as [|[k ps] g IH]; [done|].
  simpl. f_equal. exact IH.
Qed.

Lemma stably_sorted_ext (key key' : string → Z) ps vs :
  (∀ p, key p = key' p) → stably_sorted key ps vs → stably_sorted key' ps vs.
Proof.
  intros Heq (Hperm & Hsorted & Hstable). split_and!; [done | |].
  - clear Hperm Hstable. induction Hsorted as [|p vs _ IH Hp]; constructor; [done|].
    eapply Forall_impl; [exact Hp|]. intros q Hq. simpl in *. by rewrite <-!Heq.
  - intros d. rewrite <-(list_filter_iff (λ p, key p = d) (λ p, key' p = d) vs),
      <-(list_filter_iff (λ p, key p = d) (λ p, key' p = d) ps);
      [apply Hstable | intros p; by rewrite Heq..].
Qed.

(** The names of the nodes that [_explore] sorts by their [depth]
    attribute [K]. *)
Lemma stably_sorted_parents (key K : string → Z) (nodes : list _Node) ps :
  name <$> nodes = ps → Forall (λ p, K p = key p) ps →
  stably_sorted key ps (name <$> sorted (λ v, K (name v)) false nodes).
Proof.
  intros <- Hagree. rewrite Forall_fmap in Hagree.
  rewrite (sorted_ext (λ v, K (name v)) (λ v, key (name v))) by exact Hagree.
  rewrite <-(sorted_fmap name key).
  split_and!; [apply sorted_perm | apply sorted_ascending | intros d; apply sorted_stable].
Qed.

Lemma settled_app g D r ext a :
  a < length r → settled g D r a → settled g D (r ++ ext) a.
Proof.
  intros Ha Hs k o ps Hk Hps. rewrite lookup_app_l in Hk by done.
  rewrite fmap_app, take_app_le by (rewrite length_fmap; lia). exact (Hs k o ps Hk Hps).
Qed.

Lemma settled_extend g D r b xs a :
  a ≠ b → settled g D r a → settled g D (extend b xs r) a.
Proof.
  intros Hne Hs k o ps Hk Hps. unfold extend in Hk.
  rewrite list_lookup_alter_ne in Hk by done. rewrite extend_names.
  exact (Hs k o ps Hk Hps).
Qed.

Lemma settled_beyond g D r a : length r ≤ a → settled g D r a.
Proof. intros Ha k o ps Hk. apply lookup_ge_None_2 in Ha. congruence. Qed.

Section visits.
Variables (g : dict deps) (rank : string → nat) (D : depths).
Hypothesis Hclosed : closed g.
Hypothesis Hranked : ranked rank g.

Lemma parent_has_child k ps p :
  dict_get g k = Some ps → p ∈ default [] ps → ¬ childless g p.
Proof.
  intros Hk%dict_get_Some Hp Hno. unfold childless in Hno.
  rewrite Forall_forall in Hno. by apply (Hno _ Hk).
Qed.

Lemma packing_visit s k a :
  k ∈ keys g → (0 ≤ depth s k)%Z → packing g D s →
  packing g D (mk_state (<[k:=(-1)%Z]> (depth s)) (result s ++ [(k, a)])).
Proof.
  intros Hk Hpos (Hinv & Hund & Hmark). split_and!.
  - by apply pack_inv_visit.
  - intros k'. simpl. destruct (decide (k = k')) as [<-|Hne].
    + rewrite fn_lookup_insert. lia.
    + rewrite fn_lookup_insert_ne by done. apply Hund.
  - intros k'. simpl. rewrite fmap_app.
    intros [Hk'| ->%list_elem_of_singleton]%elem_of_app; [|by rewrite fn_lookup_insert].
    destruct (decide (k = k')) as [<-|Hne]; [by rewrite fn_lookup_insert|].
    rewrite fn_lookup_insert_ne by done. by apply Hmark.
Qed.

Lemma packing_extend s b xs :
  packing g D s → packing g D (mk_state (depth s) (extend b xs (result s))).
Proof.
  intros (Hinv & Hund & Hmark). split_and!; [by apply pack_inv_extend | done |].
  simpl. by rewrite extend_names.
Qed.

(** The [depth] attribute [_explore] reads on a parent of the node [k] it
    has just marked. *)
Lemma depth_at_visit s k p :
  packing g D s → p ∈ keys g → p ≠ k →
  <[k:=(-1)%Z]> (depth s) p = depth_at D (result s).*1 p.
Proof.
  intros ((Hnd & Hin & Hout) & Hund & Hmark) Hp Hne.
  rewrite fn_lookup_insert_ne by done. unfold depth_at.
  destruct (decide (p ∈ (result s).*1)) as [Hv|Hv]; [by apply Hmark|].
  apply Hund. intros Hneg. apply Hv. by apply Hout.
Qed.

Lemma order_loop_spec fuel nm vs :
  (∀ k ps s, dict_get g k = Some ps → rank k < fuel → packing g D s →
     order_post g D k s (_best_order_explore (annotate g) fuel (mk_Node k ps) s)) →
  Forall (λ v, dict_get g (name v) = Some (parents v) ∧ rank (name v) < fuel ∧
               ¬ childless g (name v)) vs →
  ∀ d s pre o mid,
    result s = pre ++ (nm, Some o) :: mid → packing g D s →
    (∀ a, length pre < a → settled g D (result s) a) →
    ∃ s' o' mid',
      explore_loop (_best_order_explore (annotate g) fuel) (length pre) vs d s = Ok s' ∧
      packing g D s' ∧ visited_kept s s' ∧
      result s' = pre ++ (nm, Some (o ++ o')) :: mid ++ mid' ∧
      padded o' (name <$> vs) ∧ Forall (λ w, ¬ childless g w) mid'.*1 ∧
      (∀ a, length pre < a → settled g D (result s') a).
Proof.
  intros Hrec Hvs. induction Hvs as [|[k ps] vs (Hk & Hfuel & Hchild) _ IH];
    intros d s pre o mid Hres Hinv Hset.
  { exists s, [], []. rewrite !app_nil_r.
    split_and!; [done | done | by intros ? | done | constructor | constructor | done]. }
  simpl in Hk, Hfuel, Hchild.
  destruct (Hrec k ps s Hk Hfuel Hinv)
    as (s1 & ext & Heq & Hres1 & Hinv1 & Hkept1 & Hvis1 & Hset1 & Hold & Hnew).
  simpl. rewrite Heq. cbn [mbind exc_bind].
  set (xs := replicate (Z.to_nat d) "_" ++ [k]).
  assert (extend (length pre) xs (result s1)
          = pre ++ (nm, Some (o ++ xs)) :: mid ++ ext) as Hext.
  { rewrite Hres1, Hres, <-app_assoc. simpl. by rewrite extend_at. }
  assert (Forall (λ w, ¬ childless g w) ext.*1) as Hparents.
  { destruct (decide (depth s k < 0)%Z) as [Hv|Hv]; [by rewrite (Hold Hv)|].
    destruct (Hnew Hv) as (e & rest & -> & Hrest). by constructor. }
  set (s2 := mk_state _ _).
  assert (result s2 = pre ++ (nm, Some (o ++ xs)) :: mid ++ ext) as Hres2 by exact Hext.
  destruct (IH (Z.of_nat (length (result s1)) - Z.of_nat (length (result s)) - 1)%Z
              s2 pre (o ++ xs) (mid ++ ext))
    as (s' & o' & mid' & Hloop & Hinv' & Hkept' & Hres' & Hpad & Hmid' & Hset');
    [done | by apply packing_extend | |].
  { intros a Ha. apply settled_extend; [lia|].
    destruct (decide (a < length (result s))) as [Hlt|Hge].
    - rewrite Hres1. apply settled_app; [done|]. by apply Hset.
    - apply Hset1. lia. }
  exists s', (xs ++ o'), (ext ++ mid'). split_and!.
  - exact Hloop.
  - done.
  - intros k' Hk'. apply Hkept'. simpl. by apply Hkept1.
  - by rewrite Hres', <-!app_assoc.
  - apply (padded_app xs [k]); [apply padded_slot | done].
  - rewrite fmap_app. by apply Forall_app.
  - done.
Qed.

Lemma order_explore_spec fuel k ps s :
  dict_get g k = Some ps → rank k < fuel → packing g D s →
  order_post g D k s (_best_order_explore (annotate g) fuel (mk_Node k ps) s).
Proof.
  revert k ps s. induction fuel as [|fuel IH]; intros k ps s Hk Hfuel Hinv; [lia|].
  assert (k ∈ keys g) as Hkey by (apply dict_get_is_Some; eauto).
  simpl. destruct (depth s k <? 0)%Z eqn:Hneg.
  { apply Z.ltb_lt in Hneg. exists s, []. rewrite app_nil_r.
    split_and!; [done | done | done | by intros ? | done | | done | done].
    intros a Ha. by apply settled_beyond. }
  apply Z.ltb_ge in Hneg.
  assert (∀ a, visited_kept s (mk_state (<[k:=(-1)%Z]> (depth s)) (result s ++ [(k, a)])))
    as Hkept1.
  { intros a k' Hk'. simpl. destruct (decide (k = k')) as [<-|]; [lia|].
    by rewrite fn_lookup_insert_ne. }
  destruct (truthy ps) eqn:Htruthy; simpl.
  2:{ eexists _, [(k, ps)]. split_and!; [done | done | by apply packing_visit | apply Hkept1
        | | | | ]; simpl.
      - by rewrite fn_lookup_insert.
      - intros a Ha k' o ps' Hlook Hg.
        destruct (decide (a = length (result s))) as [->|Hne].
        + rewrite list_lookup_middle in Hlook by done. injection Hlook as <- ->.
          assert (o = ps') as -> by congruence.
          destruct ps' as [|??]; [|done]. exists []. split; [constructor|].
          split_and!; [done | constructor | done].
        + rewrite lookup_ge_None_2 in Hlook; [done|]. rewrite length_app. simpl. lia.
      - lia.
      - intros _. exists ps, []. split; [done | constructor]. }
  assert (Forall (λ p, p ∈ keys g ∧ rank p < rank k) (default [] ps)) as Hparents.
  { apply Forall_forall. intros p Hp. by apply (parent_facts g rank Hclosed Hranked k ps p). }
  destruct (sorted_parents_spec g (default [] ps) (<[k:=(-1)%Z]> (depth s)))
    as (vs & Hsp & Hnames & Hnodes).
  { eapply Forall_impl; [exact Hparents|]. by intros p [? _]. }
  rewrite Hsp. cbn [mbind exc_bind].
  apply sorted_parents_inv in Hsp as (nodes & Hsorted & Hnn).
  rewrite Forall_forall in Hparents.
  assert (∀ v, v ∈ vs → name v ∈ default [] ps) as Hvs.
  { intros v Hv. rewrite <-Hnames. by apply list_elem_of_fmap_2. }
  destruct (order_loop_spec fuel k vs IH) with (d := 0%Z)
      (s := mk_state (<[k:=(-1)%Z]> (depth s)) (result s ++ [(k, Some [])]))
      (pre := result s) (o := @nil string) (mid := @nil entry)
    as (s' & o' & mid' & -> & Hinv' & Hkept' & Hres' & Hpad & Hmid' & Hset').
  - apply Forall_forall. intros v Hv. rewrite Forall_forall in Hnodes.
    split_and!; [by apply Hnodes | | by apply (parent_has_child k ps); [|apply Hvs]].
    destruct (Hparents _ (Hvs v Hv)). lia.
  - done.
  - by apply packing_visit.
  - intros a Ha. apply settled_beyond. simpl. rewrite length_app. simpl. lia.
  - simpl in Hres'. exists s', ((k, Some o') :: mid'). split_and!.
    + done.
    + done.
    + done.
    + intros k' Hk'. by apply Hkept', Hkept1.
    + apply Hkept'. simpl. by rewrite fn_lookup_insert.
    + intros a Ha. destruct (decide (a = length (result s))) as [->|Hne];
        [|apply Hset'; lia].
      intros k' o ps' Hlook Hg. rewrite Hres', list_lookup_middle in Hlook by done.
      injection Hlook as <- <-. rewrite Hres', fmap_app, take_app_length'
        by (by rewrite length_fmap).
      assert (ps = Some ps') as -> by congruence. simpl in *.
      exists (name <$> vs). split; [done|]. rewrite Hsorted.
      apply stably_sorted_parents; [done|].
      apply Forall_forall. intros p Hp. destruct (Hparents p Hp) as [Hpk Hlt].
      apply (depth_at_visit s k p Hinv Hpk). intros ->. lia.
    + lia.
    + intros _. by exists (Some o'), mid'.
Qed.

Lemma order_outer_spec limit (l : list _Node) s :
  Forall (λ v, dict_get g (name v) = Some (parents v) ∧ rank (name v) < limit) l →
  NoDup (name <$> l) →
  packing g D s → (∀ a, settled g D (result s) a) →
  ∃ s' ext, for_each (_best_order_explore (annotate g) limit) l s = Ok s' ∧
    result s' = result s ++ ext ∧ packing g D s' ∧
    (∀ a, settled g D (result s') a) ∧
    filter (childless g) ext.*1
    = filter (λ w, childless g w ∧ ¬ (depth s w < 0)%Z) (name <$> l).
Proof.
  intros Hl. revert s. induction Hl as [|[k ps] l [Hk Hlim] Hl IH];
    intros s Hnd Hinv Hset.
  { exists s, []. by rewrite app_nil_r. }
  simpl in Hk, Hlim. rewrite fmap_cons in Hnd. apply NoDup_cons in Hnd as [Hkl Hnd].
  destruct (order_explore_spec limit k ps s Hk Hlim Hinv)
    as (s1 & ext1 & Heq & Hres1 & Hinv1 & Hkept1 & Hvis1 & Hset1 & Hold & Hnew).
  simpl. rewrite Heq. cbn [mbind exc_bind].
  destruct (IH s1 Hnd Hinv1) as (s' & ext2 & -> & Hres' & Hinv' & Hset' & Hfilter).
  { intros a. destruct (decide (a < length (result s))) as [Hlt|Hge].
    - rewrite Hres1. apply settled_app; [done|]. apply Hset.
    - apply Hset1. lia. }
  exists s', (ext1 ++ ext2).
  split_and!; [done | by rewrite Hres', Hres1, app_assoc | done | done |].
  rewrite fmap_app, filter_app, Hfilter. simpl in Hkl.
  change (list_fmap _Node string name l) with (name <$> l). rewrite filter_cons.
  assert (filter (λ w, childless g w ∧ ¬ (depth s1 w < 0)%Z) (name <$> l)
          = filter (λ w, childless g w ∧ ¬ (depth s w < 0)%Z) (name <$> l)) as ->.
  { apply filter_ext_in. apply Forall_forall. intros w Hw.
    split; intros [Hc Hv]; (split; [done|]); intros Hneg.
    { apply Hv. by apply Hkept1. }
    destruct Hinv as ((_ & Hin & _) & _). destruct Hinv1 as ((_ & _ & Hout1) & _).
    assert (w ∈ (result s1).*1) as Hin1.
    { apply Hout1; [|done]. rewrite Forall_forall in Hl.
      apply list_elem_of_fmap in Hw as (v & -> & Hv'). destruct (Hl v Hv') as [Hg _].
      apply dict_get_is_Some. eauto. }
    rewrite Hres1, fmap_app in Hin1. apply elem_of_app in Hin1 as [Hin1|Hin1].
    { apply Hv. by apply Hin. }
    destruct (decide (depth s k < 0)%Z) as [Hvk|Hvk].
    { rewrite (Hold Hvk) in Hin1. by apply elem_of_nil in Hin1. }
    destruct (Hnew Hvk) as (e & rest & -> & Hrest). rewrite fmap_cons in Hin1.
    apply elem_of_cons in Hin1 as [->|Hin1]; [by apply Hkl|].
    rewrite Forall_forall in Hrest. by apply (Hrest w). }
  destruct (decide (depth s k < 0)%Z) as [Hvk|Hvk].
  - rewrite (Hold Hvk). simpl. rewrite decide_False; [done|]. by intros [_ ?].
  - destruct (Hnew Hvk) as (e & rest & -> & Hrest). rewrite fmap_cons, filter_cons. simpl.
    rewrite (filter_none _ _ Hrest).
    destruct (decide (childless g k)) as [Hc|Hc].
    + by rewrite decide_True.
    + rewrite decide_False; [done|]. by intros [? _].
Qed.
End visits.

(** C4, as stated: two parents of equal depth are visited in the order in
    which the node declares them, here [b] before [a], and not in the
    order of their insertion. *)
Lemma C4_parent_ties_follow_declaration :
  ∃ D, _depth 10 g_ties = Ok (annotate g_ties, D) ∧
    _best_order 10 g_ties = Ok [("a", None); ("b", None); ("c", Some ["b"; "a"])] ∧
    D "a" = D "b" ∧ before_in (keys g_ties) "a" "b" ∧
    ¬ parent_ties_by_insertion g_ties D
        [("a", None); ("b", None); ("c", Some ["b"; "a"])].
Proof.
  destruct (depth_total g_ties (λ k, if decide (k = "c") then 1 else 0))
    with (limit := 10) as (D & HD & Hinv & Hpos); [by_computation..|].
  assert (D "a" = 0%Z ∧ D "b" = 0%Z) as [Ha Hb].
  { split.
    - destruct (Hinv "a" None eq_refl) as [_ Hset].
      by destruct Hset as [-> _]; [apply Hpos; by_computation|].
    - destruct (Hinv "b" None eq_refl) as [_ Hset].
      by destruct Hset as [-> _]; [apply Hpos; by_computation|]. }
  assert (before_in ["a"; "b"; "c"] "a" "b") as Hab.
  { exists 0, 1. split_and!; [done | done | lia]. }
  exists D. split_and!; [done | vm_compute; reflexivity | congruence | done |].
  intros H. destruct (H "c" ["b"; "a"] "b" "a") as (i & j & Hi & Hj & Hlt).
  - by_computation.
  - exists 0, 1. split_and!; [done | done | lia].
  - done.
  - done.
  - congruence.
  - destruct i as [|[|[|i]]], j as [|[|[|j]]]; simpl in *; try done; lia.
Qed.

(** C4, amended: on an acyclic collection resolution returns a result,
    which holds every key once and is determined by the keys, the
    declared dependencies and the insertion order, as follows.
    Ties in the global order of the visits are broken by insertion order:
    of two nodes that no producer depends on, the deeper one is visited
    first, and at equal depth the one inserted first; since the result
    is reversed at the end, the node visited first stands later.
    The parents of a node are visited by ascending [depth] attribute at
    the time its entry is appended, which is [-1] for a parent visited
    before (it stands after the node in the result) and otherwise its
    depth; ties are broken by the order of the declared arguments, and
    not by insertion order. The offsets list the parents in that order,
    between placeholders. *)
Theorem C4_resolution_order_and_ties limit rank (g : dict deps) :
  is_dict g → closed g → ranked rank g → within limit rank g →
  ∃ D res, _depth limit g = Ok (annotate g, D) ∧ _best_order limit g = Ok res ∧
    res.*1 ≡ₚ keys g ∧
    (∀ u v, u ∈ keys g → v ∈ keys g → childless g u → childless g v →
       (D v < D u)%Z ∨ (D v = D u ∧ before_in (keys g) u v) →
       before_in res.*1 v u) ∧
    (∀ i k o ps, res !! i = Some (k, Some o) → (k, Some ps) ∈ g →
       ∃ vs, padded o vs ∧ stably_sorted (depth_at D (drop (S i) res.*1)) ps vs).
Proof.
  intros Hdict Hclosed Hranked Hwithin.
  destruct (best_order_total g rank Hdict Hclosed Hranked limit Hwithin)
    as (res0 & Hres0 & Hperm & _).
  revert Hres0. unfold _best_order.
  destruct (depth_total g rank Hclosed Hranked Hdict limit Hwithin) as (D & -> & _ & Hpos).
  cbn [mbind exc_bind].
  assert (name <$> sorted (λ v, D (name v)) true (values (annotate g))
          = sorted D true (keys g)) as Hnames.
  { by rewrite <-(sorted_fmap name D), names_annotate. }
  destruct (order_outer_spec g rank D Hclosed Hranked limit
              (sorted (λ v, D (name v)) true (values (annotate g))) (mk_state D []))
    as (s' & ext & -> & Hres & _ & Hset & Hfilter).
  { rewrite sorted_perm, values_annotate. apply Forall_fmap, Forall_forall.
    intros [k ps] Hkv. simpl. split; [by apply dict_get_elem_of|].
    unfold within in Hwithin. rewrite Forall_forall in Hwithin. apply (Hwithin _ Hkv). }
  { rewrite Hnames, sorted_perm. exact Hdict. }
  { split_and!; simpl.
    - split_and!; simpl; [constructor | by intros ? ?%elem_of_nil |].
      intros k Hk Hneg. specialize (Hpos k Hk). lia.
    - done.
    - by intros ? ?%elem_of_nil. }
  { intros a. by apply settled_beyond; simpl; lia. }
  cbn [mbind exc_bind]. simpl in Hres. rewrite Hres. intros [= <-].
  exists D, (reverse ext). split_and!; [done | done | done | |].
  - intros u v Hu Hv Hcu Hcv Hord. rewrite fmap_reverse. apply before_in_reverse.
    apply (before_in_unfilter (childless g)). rewrite Hfilter, Hnames.
    apply before_in_filter.
    + split; [done|]. simpl. specialize (Hpos u Hu). lia.
    + split; [done|]. simpl. specialize (Hpos v Hv). lia.
    + by apply sorted_before.
  - intros i k o ps Hi Hk. apply (dict_get_elem_of g _ _ Hdict) in Hk.
    pose proof (lookup_lt_Some _ _ _ Hi) as Hlt. rewrite length_reverse in Hlt.
    rewrite reverse_lookup in Hi by done.
    destruct (Hset (length ext - S i) k o ps) as (vs & Hpad & Hsorted).
    { rewrite Hres. exact Hi. }
    { done. }
    exists vs. split; [done|]. eapply stably_sorted_ext; [|exact Hsorted].
    intros p. unfold depth_at. apply decide_ext.
    by rewrite Hres, fmap_reverse, drop_reverse, elem_of_reverse, length_fmap.
Qed.

Lemma C4_resolution_order_and_ties_witness :
  ∃ D res, _depth 10 g_tree = Ok (annotate g_tree, D) ∧ _best_order 10 g_tree = Ok res ∧
    res.*1 ≡ₚ keys g_tree ∧
    (∀ u v, u ∈ keys g_tree → v ∈ keys g_tree →
       childless g_tree u → childless g_tree v →
       (D v < D u)%Z ∨ (D v = D u ∧ before_in (keys g_tree) u v) →
       before_in res.*1 v u) ∧
    (∀ i k o ps, res !! i = Some (k, Some o) → (k, Some ps) ∈ g_tree →
       ∃ vs, padded o vs ∧ stably_sorted (depth_at D (drop (S i) res.*1)) ps vs).
Proof.
  apply (C4_resolution_order_and_ties 10 rank_tree g_tree); by_computation.
Defined.

(** ** [_flatten] and [_unflatten] *)

Lemma py_dict_acc_lookup {V} (f : string → V) (names : list string)
    (m : gmap string V) (n : string) :
  foldl (λ m kv, <[kv.1 := kv.2]> m) m (zip names (f <$> names)) !! n
  = if decide (n ∈ names) then Some (f n) else m !! n.
Proof.
  revert m. induction names as [|a names IH]; intros m.
  { destruct (decide (n ∈ [])) as [Hin|_]; [by apply elem_of_nil in Hin | done]. }
  rewrite fmap_cons. cbn [zip zip_with foldl]. rewrite IH. simpl.
  destruct (decide (n ∈ names)) as [Hin|Hin], (decide (n ∈ a :: names)) as [Hin'|Hin'];
    try done.
  - destruct Hin'. by right.
  - apply elem_of_cons in Hin' as [->|?]; [|done]. by rewrite lookup_insert_eq.
  - rewrite lookup_insert_ne; [done|]. intros ->. apply Hin'. by left.
Qed.

Lemma py_dict_lookup {V} (f : string → V) (names : list string) (n : string) :
  py_dict (zip names (f <$> names)) !! n = if decide (n ∈ names) then Some (f n) else None.
Proof. unfold py_dict. by rewrite py_dict_acc_lookup, lookup_empty. Qed.

Lemma py_dict_dom {V} (f : string → V) (names : list string) :
  dom (py_dict (zip names (f <$> names))) = list_to_set names.
Proof.
  apply set_eq. intros n. rewrite elem_of_dom, py_dict_lookup, elem_of_list_to_set.
  destruct (decide (n ∈ names)); [by split; eauto|]. split; [by intros [? ?] | done].
Qed.

Section flatten_facts.
Context {value : Type} (call : value → string → exc (object value)).
Implicit Types (x : structure value) (names : list string).
Implicit Types (fields attrs kwargs : gmap string (object value)).

Lemma flatten_attributes names fields attrs :
  getattr fields attrs "get" = None →
  Forall (λ n, is_Some (getattr fields attrs n)) names →
  _flatten value call names (Some (Record_ fields attrs))
  = Ok ((λ n, default PyNone (getattr fields attrs n)) <$> names).
Proof.
  intros Hget Hall. simpl. rewrite Hget. apply map_exc_ok. intros n Hn.
  rewrite Forall_forall in Hall. by destruct (Hall n Hn) as [v ->].
Qed.

Lemma flatten_slots names x :
  readable names x → _flatten value call names (Some x) = Ok (slot x <$> names).
Proof.
  destruct x as [items|fields attrs]; simpl; [done|]. intros [Hget Hall].
  rewrite Hget. apply map_exc_ok. intros n Hn. rewrite Forall_forall in Hall.
  destruct (Hall n Hn) as [v Hv]. unfold slot, getattr. simpl. by rewrite Hv.
Qed.

Lemma flatten_missing_attribute names fields attrs :
  getattr fields attrs "get" = None →
  ¬ Forall (λ n, is_Some (getattr fields attrs n)) names →
  ∃ n, n ∈ names ∧ getattr fields attrs n = None ∧
    _flatten value call names (Some (Record_ fields attrs)) = Raise (AttributeError n).
Proof.
  intros Hget. simpl. rewrite Hget. induction names as [|a names IH]; intros Hno.
  { destruct Hno. constructor. }
  simpl. destruct (getattr fields attrs a) as [v|] eqn:Ha; simpl.
  - destruct IH as (n & Hn & Hnone & Hraise).
    { intros Hall. apply Hno. constructor; [by rewrite Ha | done]. }
    exists n. rewrite Hraise. split_and!; [by right | done | done].
  - exists a. split_and!; [by left | done | done].
Qed.

Lemma field_defaults_Some (cls : record_class value) f d :
  (f, Some d) ∈ class_fields cls → is_Some (field_defaults cls !! f).
Proof.
  intros Hin. apply not_eq_None_Some. unfold field_defaults.
  intros Hno%not_elem_of_list_to_map_2. apply Hno.
  apply list_elem_of_fmap. exists (f, d). split; [done|].
  apply list_elem_of_omap. by exists (f, Some d).
Qed.

Lemma field_defaults_None (cls : record_class value) f :
  (∀ d, (f, Some d) ∉ class_fields cls) → field_defaults cls !! f = None.
Proof.
  intros Hno. unfold field_defaults. apply not_elem_of_list_to_map_1.
  intros ([f' d] & -> & ([f'' [d'|]] & Hin & Heq)%list_elem_of_omap)%list_elem_of_fmap;
    simpl in *; [|done].
  injection Heq as -> ->. by apply (Hno d).
Qed.

(** The call of a class that accepts the names, with one keyword per
    name. *)
Lemma new_record_accepts (cls : record_class value) names kwargs :
  dom kwargs = list_to_set names → accepts (RecordType cls) names →
  new_record value cls kwargs
  = Ok (Record_ (kwargs ∪ field_defaults cls) (class_attrs cls)).
Proof.
  intros Hdom [Hnames Hfields]. unfold new_record. rewrite decide_True; [done|].
  rewrite Forall_forall in Hnames. rewrite Forall_forall in Hfields. split.
  - rewrite Hdom. intros n Hn%elem_of_list_to_set. apply elem_of_list_to_set. auto.
  - apply Forall_forall. intros f ([f' d] & -> & Hfd)%list_elem_of_fmap. simpl.
    apply lookup_union_is_Some. destruct (Hfields _ Hfd) as [[d' Hd]|Hin]; simpl in *.
    + right. subst d. by apply (field_defaults_Some cls f' d').
    + left. apply elem_of_dom. rewrite Hdom. by apply elem_of_list_to_set.
Qed.
End flatten_facts.

(** C5, as stated: a record whose fields are only some of the resolved
    names is not flattened, so there is nothing to unflatten. *)
Lemma C5_record_with_fewer_fields :
  (∀ n, is_Some (item (Record_ {["a" := Obj (Num 1)]} namedtuple_attrs) n) →
        n ∈ ["a"; "b"]) ∧
  _flatten sample call_sample ["a"; "b"]
    (Some (Record_ {["a" := Obj (Num 1)]} namedtuple_attrs))
  = Raise (AttributeError "b").
Proof.
  split; [|vm_compute; reflexivity].
  intros n [v Hv]. simpl in Hv. apply lookup_singleton_Some in Hv as [<- _]. by left.
Qed.

(** C5, amended: for a mapping, and for a record that is read by attribute
    (it has no attribute [get]) and has every resolved name as a field,
    and for a model type that can be called with the resolved names as
    keywords, unflattening the flattened structure gives a structure that
    holds, under every resolved name, the value the original holds under
    it ([None] for a name the mapping lacks). *)
Theorem C5_unflatten_flatten {value : Type} (call : value → string → exc (object value))
    (names : list string) (ty : model_type value) (x : structure value) :
  accepts ty names → readable names x →
  ∃ ys y, _flatten value call names (Some x) = Ok ys ∧
    _unflatten value names ty ys = Ok y ∧
    ∀ n, n ∈ names →
      item y n = Some (default PyNone (item x n)) ∧
      (∀ v, item x n = Some v → item y n = Some v).
Proof.
  intros Hty Hx. rewrite (flatten_slots call names x Hx).
  set (kwargs := py_dict (zip names (slot x <$> names))).
  assert (∀ n, n ∈ names → kwargs !! n = Some (slot x n)) as Hget.
  { intros n Hn. unfold kwargs. by rewrite py_dict_lookup, decide_True. }
  assert (∀ y, (∀ n, n ∈ names → item y n = kwargs !! n) →
            ∀ n, n ∈ names →
              item y n = Some (default PyNone (item x n)) ∧
              (∀ v, item x n = Some v → item y n = Some v)) as Hitems.
  { intros y Hy n Hn. rewrite (Hy n Hn), (Hget n Hn). unfold slot. split; [done|].
    by intros v ->. }
  exists (slot x <$> names).
  unfold _unflatten. fold kwargs. destruct ty as [|cls].
  - eexists. split_and!; [done | done |]. by apply Hitems.
  - rewrite (new_record_accepts cls names kwargs); [|apply py_dict_dom | done].
    eexists. split_and!; [done | done |]. apply Hitems. intros n Hn. simpl.
    rewrite (Hget n Hn). apply lookup_union_Some_l, Hget, Hn.
Qed.

Lemma C5_unflatten_flatten_witness :
  ∃ ys y,
    _flatten sample call_sample ["b"; "a"]
      (Some (Record_ {["a" := Obj (Num 1); "b" := Obj (Num 2)]} namedtuple_attrs)) = Ok ys ∧
    _unflatten sample ["b"; "a"] (RecordType class_ab) ys = Ok y ∧
    ∀ n, n ∈ ["b"; "a"] →
      item y n = Some (default PyNone
        (item (Record_ {["a" := Obj (Num 1); "b" := Obj (Num 2)]} namedtuple_attrs) n)) ∧
      (∀ v, item (Record_ {["a" := Obj (Num 1); "b" := Obj (Num 2)]} namedtuple_attrs) n
            = Some v → item y n = Some v).
Proof.
  apply (C5_unflatten_flatten call_sample ["b"; "a"] (RecordType class_ab)
           (Record_ {["a" := Obj (Num 1); "b" := Obj (Num 2)]} namedtuple_attrs)).
  - by_computation.
  - split; [vm_compute; reflexivity | by_computation].
Defined.

(** ** Missing dependencies *)

Section no_overflow.
Variables (g : dict deps) (rank : string → nat).
Hypothesis Hranked : ranked rank g.

Lemma explore_parents_no_overflow fuel ps st :
  (∀ v st, dict_get (annotate g) (name v) = Some v → rank (name v) < fuel →
     _depth_explore (annotate g) fuel v st ≠ Raise RecursionError) →
  Forall (λ p, rank p < fuel) ps →
  explore_parents (annotate g) (_depth_explore (annotate g) fuel) ps st
    ≠ Raise RecursionError.
Proof.
  intros Hrec Hps. revert st. induction Hps as [|p ps Hp _ IH]; intros st; simpl; [done|].
  rewrite dict_get_annotate. destruct (dict_get g p) as [pps|] eqn:Hpps; simpl; [|done].
  specialize (Hrec (mk_Node p pps) st). simpl in Hrec.
  rewrite dict_get_annotate, Hpps in Hrec. specialize (Hrec eq_refl Hp).
  destruct (_depth_explore _ _ _ st) as [[d st1]|e]; simpl; [|congruence].
  specialize (IH st1). destruct (explore_parents _ _ ps st1) as [[ds st2]|e]; simpl;
    [done | congruence].
Qed.

Lemma depth_explore_no_overflow fuel v st :
  dict_get (annotate g) (name v) = Some v → rank (name v) < fuel →
  _depth_explore (annotate g) fuel v st ≠ Raise RecursionError.
Proof.
  revert v st. induction fuel as [|fuel IH]; intros [k ps] st Hv Hfuel; simpl in *; [lia|].
  destruct (st k <? 0)%Z; [|done]. destruct (truthy ps); [|done].
  pose proof (explore_parents_no_overflow fuel (default [] ps) st IH) as Hps.
  destruct (explore_parents _ _ _ st) as [[ds st1]|e]; simpl; [done|].
  intros [= ->]. apply Hps; [|done].
  rewrite dict_get_annotate in Hv. destruct (dict_get g k) as [ps'|] eqn:Hk; [|done].
  injection Hv as ->. apply dict_get_Some in Hk.
  unfold ranked in Hranked. rewrite Forall_forall in Hranked. specialize (Hranked _ Hk).
  simpl in Hranked. eapply Forall_impl; [exact Hranked|]. simpl. lia.
Qed.

Lemma depth_no_overflow limit :
  is_dict g → within limit rank g → _depth limit g ≠ Raise RecursionError.
Proof.
  intros Hdict Hwithin. unfold _depth. rewrite values_annotate.
  cut (∀ (l : list (string * deps)) st, Forall (λ kv, kv ∈ g) l →
         for_each (λ v st, '(_, st') ← _depth_explore (annotate g) limit v st; Ok st')
           (map (λ kv, mk_Node kv.1 kv.2) l) st ≠ Raise RecursionError).
  { intros H. specialize (H g init_depths).
    destruct (for_each _ _ init_depths); simpl; [done|]. intros [= ->].
    apply H; [by apply Forall_forall | done]. }
  intros l st Hl. revert st. induction Hl as [|[k ps] l Hin _ IH]; intros st; simpl; [done|].
  pose proof (depth_explore_no_overflow limit (mk_Node k ps) st) as Hv. simpl in Hv.
  rewrite dict_get_annotate, (dict_get_elem_of g k ps Hdict Hin) in Hv.
  unfold within in Hwithin. rewrite Forall_forall in Hwithin.
  specialize (Hv eq_refl (Hwithin _ Hin)).
  destruct (_depth_explore _ _ _ st) as [[d st1]|e]; simpl; [apply IH | congruence].
Qed.
End no_overflow.

(** On [g_lost] the exploration runs around the cycle, whatever the
    limit, and never comes to look up the name that is no key. *)
Lemma lost_in_cycle fuel st :
  (st "a" < 0)%Z → (st "b" < 0)%Z →
  _depth_explore (annotate g_lost) fuel (mk_Node "a" (Some ["b"])) st
  = Raise RecursionError ∧
  _depth_explore (annotate g_lost) fuel (mk_Node "b" (Some ["a"; "zz"])) st
  = Raise RecursionError.
Proof.
  intros Ha%Z.ltb_lt Hb%Z.ltb_lt. induction fuel as [|fuel [IHa IHb]]; [done|].
  split; cbn [_depth_explore name parents truthy default from_option id explore_parents].
  - rewrite Ha.
    change (dict_get (annotate g_lost) "b") with (Some (mk_Node "b" (Some ["a"; "zz"]))).
    cbn [mbind exc_bind]. by rewrite IHb.
  - rewrite Hb.
    change (dict_get (annotate g_lost) "a") with (Some (mk_Node "a" (Some ["b"]))).
    cbn [mbind exc_bind]. by rewrite IHa.
Qed.

(** C6, as stated: a producer of [g_lost] declares the name [zz], which
    is no key, and yet resolution fails with the [RecursionError] of the
    cycle, at every recursion limit: the failure does not name the
    missing dependency. *)
Lemma C6_cycle_hides_missing_name :
  dangling g_lost ∧
  ∀ limit,
    _best_order limit g_lost = Raise RecursionError ∧
    _prob_chain_rule_flatten deps nat id limit g_lost = Raise RecursionError.
Proof.
  split; [by_computation|]. intros limit.
  assert (_best_order limit g_lost = Raise RecursionError) as Hbest.
  { unfold _best_order, _depth.
    change (values (annotate g_lost))
      with [mk_Node "a" (Some ["b"]); mk_Node "b" (Some ["a"; "zz"])].
    cbn [for_each]. by destruct (lost_in_cycle limit init_depths) as [-> _]. }
  split; [done|]. unfold _prob_chain_rule_flatten.
  change (map (λ kv : string * deps, (kv.1, id kv.2)) g_lost) with g_lost.
  by rewrite Hbest.
Qed.

(** C6, amended: when some producer declares a dependency that is not a
    key, resolution raises, and so does the construction of the wrappers,
    which therefore never run. The failure is no check of the collection:
    it is the [KeyError] of the lookup of a declared name that is not a
    key, or the [RecursionError] of a cycle or of a chain longer than the
    recursion limit when that comes first; on an acyclic collection whose
    chains fit the limit it is the [KeyError]. *)
Theorem C6_missing_dependency_raises {maker value : Type}
    (required_args : maker → deps) limit (named_makers : dict maker) :
  let g := map (λ kv, (kv.1, required_args kv.2)) named_makers in
  is_dict g → dangling g →
  ∃ e, _best_order limit g = Raise e ∧
    _prob_chain_rule_flatten maker value required_args limit named_makers = Raise e ∧
    (e = RecursionError ∨ ∃ p, e = KeyError p ∧ (p ∉ keys g) ∧ declared g p) ∧
    (∀ rank, ranked rank g → within limit rank g → e ≠ RecursionError).
Proof.
  intros g Hdict Hdangling.
  pose proof (depth_outcome g Hdict limit) as Hout.
  pose proof (λ rank Hr, depth_no_overflow g rank Hr limit Hdict) as Hno.
  unfold _prob_chain_rule_flatten, _best_order. fold g.
  destruct (_depth limit g) as [[g' st]|e]; simpl.
  { by apply dangling_not_closed in Hdangling. }
  exists e. split_and!; [done | done | exact Hout |].
  intros rank Hr Hw ->. by apply (Hno rank Hr Hw).
Qed.

Lemma C6_missing_dependency_raises_witness :
  ∃ e, _best_order 10 [("a", Some ["zz"])] = Raise e ∧
    _prob_chain_rule_flatten deps nat id 10 [("a", Some ["zz"])] = Raise e ∧
    (e = RecursionError ∨
     ∃ p, e = KeyError p ∧ (p ∉ keys [("a", Some ["zz"])]) ∧
       declared [("a", Some ["zz"])] p) ∧
    (∀ rank, ranked rank [("a", Some ["zz"])] → within 10 rank [("a", Some ["zz"])] →
       e ≠ RecursionError).
Proof.
  apply (C6_missing_dependency_raises (value:=nat) id 10 [("a", Some ["zz"])]);
    by_computation.
Defined.

(** C7, as stated: a record that lacks a resolved name is not flattened. *)
Lemma C7_record_without_field :
  _flatten sample call_sample ["a"; "b"]
    (Some (Record_ {["a" := Obj (Num 1)]} namedtuple_attrs))
  = Raise (AttributeError "b").
Proof. vm_compute. reflexivity. Qed.

(** A record with a field named [get] is taken for a mapping, and the
    call of the value of the field fails; a resolved name that is no field
    but an attribute of the class is read without failure. *)
Example record_with_field_get :
  _flatten sample call_sample ["get"]
    (Some (Record_ {["get" := Obj (Num 1)]} namedtuple_attrs)) = Raise TypeError.
Proof. vm_compute. reflexivity. Qed.

Example record_class_attribute :
  _flatten sample call_sample ["a"; "count"]
    (Some (Record_ {["a" := Obj (Num 1)]} namedtuple_attrs))
  = Ok [Obj (Num 1); Obj (ClassAttr "count")].
Proof. vm_compute. reflexivity. Qed.

(** C7, amended: [_flatten] of [None] is a tuple of [None], one per
    resolved name; a mapping is flattened without failure, with [None] in
    the slot of every name it lacks; a record without an attribute [get]
    is flattened when every resolved name is an attribute of it (a field,
    or an attribute of its class), each slot holding that attribute, and
    otherwise the lookup of a name that is no attribute fails; a record
    with an attribute [get] is read through calls of that attribute, and
    is not flattened when it cannot be called so. *)
Theorem C7_flatten_missing_names {value : Type}
    (call : value → string → exc (object value)) (names : list string) :
  _flatten value call names None = Ok (replicate (length names) PyNone) ∧
  (∀ items, ∃ ys,
     _flatten value call names (Some (Mapping items)) = Ok ys ∧
     length ys = length names ∧
     ∀ i n, names !! i = Some n →
       ys !! i = Some (default PyNone (items !! n)) ∧
       (items !! n = None → ys !! i = Some PyNone)) ∧
  (∀ fields attrs,
     getattr fields attrs "get" = None →
     Forall (λ n, is_Some (getattr fields attrs n)) names →
     ∃ ys, _flatten value call names (Some (Record_ fields attrs)) = Ok ys ∧
       length ys = length names ∧
       ∀ i n, names !! i = Some n → ys !! i = getattr fields attrs n) ∧
  (∀ fields attrs,
     getattr fields attrs "get" = None →
     ¬ Forall (λ n, is_Some (getattr fields attrs n)) names →
     ∃ n, n ∈ names ∧ fields !! n = None ∧ attrs !! n = None ∧
       _flatten value call names (Some (Record_ fields attrs)) = Raise (AttributeError n)) ∧
  (∀ fields attrs get,
     getattr fields attrs "get" = Some get →
     (∀ n, call_object value call get n = Raise TypeError) → names ≠ [] →
     _flatten value call names (Some (Record_ fields attrs)) = Raise TypeError).
Proof.
  split_and!; [done | | | |].
  - intros items. eexists. split_and!; [done | by rewrite length_fmap |].
    intros i n Hi. rewrite list_lookup_fmap, Hi. simpl. split; [done|].
    by intros ->.
  - intros fields attrs Hget Hall. rewrite (flatten_attributes call names fields attrs) by done.
    eexists. split_and!; [done | by rewrite length_fmap |].
    intros i n Hi. rewrite list_lookup_fmap, Hi. simpl.
    rewrite Forall_forall in Hall. destruct (Hall n) as [v ->]; [|done].
    by eapply list_elem_of_lookup_2.
  - intros fields attrs Hget Hno.
    destruct (flatten_missing_attribute call names fields attrs Hget Hno)
      as (n & Hn & Hnone & Hraise).
    exists n. unfold getattr in Hnone. destruct (fields !! n) eqn:Hf; [done|].
    by split_and!.
  - intros fields attrs get Hget Hcall Hnames. simpl. rewrite Hget.
    destruct names as [|n names]; [done|]. simpl. by rewrite Hcall.
Qed.

(** C8: on an acyclic collection the depth annotator returns, and gives
    every node a depth that is not negative: 0 for a node without parents,
    otherwise 1 plus the largest depth among its parents. *)
Theorem C8_depth_annotation limit rank (g : dict deps) :
  is_dict g → closed g → ranked rank g → within limit rank g →
  ∃ st, _depth limit g = Ok (annotate g, st) ∧
    ∀ k ps, (k, ps) ∈ g →
      (0 ≤ st k)%Z ∧
      st k = if truthy ps then (1 + py_max (st <$> default [] ps))%Z else 0%Z.
Proof.
  intros Hdict Hclosed Hranked Hwithin.
  destruct (depth_total g rank Hclosed Hranked Hdict limit Hwithin) as (st & Hst & Hinv & Hpos).
  exists st. split; [done|]. intros k ps Hin.
  assert (0 ≤ st k)%Z as Hk.
  { apply Hpos. apply list_elem_of_fmap. by exists (k, ps). }
  split; [done|]. apply dict_get_elem_of in Hin; [|done].
  by destruct (Hinv k ps Hin) as [_ [? _]].
Qed.

Lemma C8_depth_annotation_witness :
  ∃ st, _depth 10 g_doc = Ok (annotate g_doc, st) ∧
    ∀ k ps, (k, ps) ∈ g_doc →
      (0 ≤ st k)%Z ∧
      st k = if truthy ps then (1 + py_max (st <$> default [] ps))%Z else 0%Z.
Proof. apply (C8_depth_annotation 10 rank_doc g_doc); by_computation. Defined.

Lemma map_exc_total {A B} (f : A → exc B) (l : list A) :
  Forall (λ x, ∃ y, f x = Ok y) l → ∃ ys, map_exc f l = Ok ys.
Proof.
  induction 1 as [|x l [y Hy] _ [ys IH]]; simpl; [by eexists|].
  rewrite Hy. simpl. rewrite IH. simpl. by eexists.
Qed.

(** C9, as stated: the empty collection is acyclic, but the four tuples
    are not built for it. *)
Lemma C9_empty_collection :
  _prob_chain_rule_flatten unit unit (λ _, None) 10 [] = Raise ValueError.
Proof. reflexivity. Qed.

(** C9, amended: on a non-empty acyclic collection the resolved names are
    a permutation of the keys, and the four tuples have as many elements
    as the collection has entries. *)
Theorem C9_resolved_names_permutation {maker value : Type}
    (required_args : maker → deps) limit rank (named_makers : dict maker) :
  let g := map (λ kv, (kv.1, required_args kv.2)) named_makers in
  named_makers ≠ [] →
  is_dict g → closed g → ranked rank g → within limit rank g →
  ∃ res f, _best_order limit g = Ok res ∧ res.*1 ≡ₚ keys g ∧
    _prob_chain_rule_flatten maker value required_args limit named_makers = Ok f ∧
    dist_fn_name _ _ f = res.*1 ∧
    length (dist_fn _ _ f) = length named_makers ∧
    length (dist_fn_wrapped _ _ f) = length named_makers ∧
    length (dist_fn_args _ _ f) = length named_makers ∧
    length (dist_fn_name _ _ f) = length named_makers.
Proof.
  intros g Hne Hdict Hclosed Hranked Hwithin.
  destruct (best_order_total g rank Hdict Hclosed Hranked limit Hwithin)
    as (res & Hres & Hperm & _).
  assert (length res = length named_makers) as Hlen.
  { rewrite <-(length_fmap fst res), Hperm. unfold keys, g.
    by rewrite !length_fmap. }
  assert (keys g = keys named_makers) as Hkeys.
  { unfold keys, g. by rewrite <-list_fmap_compose. }
  destruct (map_exc_total (λ e : entry,
      match dict_get named_makers e.1 with
      | Some m => Ok (_make maker value m e.2)
      | None => Raise (KeyError e.1)
      end) res) as [ws Hws].
  { apply Forall_forall. intros e He.
    assert (e.1 ∈ keys named_makers) as [m Hm]%dict_get_is_Some.
    { rewrite <-Hkeys, <-Hperm. by apply list_elem_of_fmap_2. }
    rewrite Hm. by eexists. }
  unfold _prob_chain_rule_flatten. fold g. rewrite Hres. cbn [mbind exc_bind].
  destruct res as [|e res]; [by destruct named_makers|].
  cbn [unzip_pairs mbind exc_bind]. rewrite Hws. cbn [mbind exc_bind].
  eexists _, _. split_and!; [done | done | done | done | ..]; simpl.
  - rewrite length_fmap, length_fmap. exact Hlen.
  - rewrite (map_exc_length _ _ _ Hws). exact Hlen.
  - rewrite length_fmap. exact Hlen.
  - rewrite length_fmap. exact Hlen.
Qed.

Lemma C9_resolved_names_permutation_witness :
  ∃ res f, _best_order 10 g_doc = Ok res ∧ res.*1 ≡ₚ keys g_doc ∧
    _prob_chain_rule_flatten deps nat id 10 makers_doc = Ok f ∧
    dist_fn_name _ _ f = res.*1 ∧
    length (dist_fn _ _ f) = 5 ∧ length (dist_fn_wrapped _ _ f) = 5 ∧
    length (dist_fn_args _ _ f) = 5 ∧ length (dist_fn_name _ _ f) = 5.
Proof.
  apply (C9_resolved_names_permutation (value:=nat) id 10 rank_doc makers_doc);
    [done | by_computation..].
Defined.

(** C10: whatever the offsets of a producer are, also when it declares an
    argument named ["_"], the keyword arguments its wrapper passes have no
    key ["_"]. *)
Theorem C10_placeholder_argument_dropped {maker value : Type}
    (dist_fn : maker) (a : string) (args : list string) (xs : list value) :
  ∃ kwargs, _make maker value dist_fn (Some (a :: args)) xs = Call dist_fn kwargs ∧
    kwargs !! "_" = None.
Proof.
  simpl. eexists. split; [done|]. unfold _fn_kwargs. apply lookup_delete_eq.
Qed.

(** A producer [f] that declares the argument ["_"]: its offsets hold the
    name, and its wrapper drops the value. *)
Example placeholder_named_argument :
  _best_order 10 [("_", None); ("f", Some ["_"])] = Ok [("_", None); ("f", Some ["_"])] ∧
  _make unit nat () (Some ["_"]) [7] = Call () ∅.
Proof. split; vm_compute; reflexivity. Qed.

(** ** Further properties of the wrappers and of the adapters *)

Lemma py_dict_snoc {V} (pairs : list (string * V)) k v :
  py_dict (pairs ++ [(k, v)]) = <[k:=v]> (py_dict pairs).
Proof. unfold py_dict. by rewrite foldl_snoc. Qed.

(** The last pair with a given key decides. *)
Lemma py_dict_last {V} (pairs : list (string * V)) j k v :
  pairs !! j = Some (k, v) →
  (∀ j' v', j < j' → pairs !! j' ≠ Some (k, v')) →
  py_dict pairs !! k = Some v.
Proof.
  revert j. induction pairs as [|[k' v'] pairs IH] using rev_ind; intros j Hj Hlast.
  { by rewrite lookup_nil in Hj. }
  rewrite py_dict_snoc. destruct (decide (j = length pairs)) as [->|Hne].
  - rewrite list_lookup_middle in Hj by done. injection Hj as -> ->.
    apply lookup_insert_eq.
  - assert (j < length pairs) as Hlt.
    { apply lookup_lt_Some in Hj. rewrite length_app in Hj. simpl in Hj. lia. }
    rewrite lookup_app_l in Hj by done.
    rewrite lookup_insert_ne.
    + apply (IH j Hj). intros j' w Hjj' Hj'. apply (Hlast j' w Hjj').
      by apply lookup_app_l_Some.
    + intros ->. apply (Hlast (length pairs) v' Hlt). by rewrite list_lookup_middle.
Qed.

Lemma py_dict_Some {V} (pairs : list (string * V)) k v :
  py_dict pairs !! k = Some v → ∃ j, pairs !! j = Some (k, v).
Proof.
  induction pairs as [|[k' v'] pairs IH] using rev_ind.
  { unfold py_dict. simpl. by rewrite lookup_empty. }
  rewrite py_dict_snoc. destruct (decide (k' = k)) as [->|Hne].
  - rewrite lookup_insert_eq. intros [= ->]. exists (length pairs).
    by rewrite list_lookup_middle.
  - rewrite lookup_insert_ne by done. intros [j Hj]%IH. exists j.
    by apply lookup_app_l_Some.
Qed.

Lemma py_dict_keys {V} (pairs : list (string * V)) :
  dom (py_dict pairs) = list_to_set pairs.*1.
Proof.
  induction pairs as [|[k v] pairs IH] using rev_ind.
  { unfold py_dict. simpl. apply dom_empty_L. }
  rewrite py_dict_snoc, dom_insert_L, IH, fmap_app, list_to_set_app_L. simpl.
  by rewrite (right_id_L ∅ (∪)), (comm_L (∪)).
Qed.

(** The trailing window, read backwards. *)
Lemma window_lookup {V} (n j : nat) (xs : list V) :
  j < n → j < length xs →
  reverse (last_slice n xs) !! j = xs !! (length xs - 1 - j).
Proof.
  intros Hn Hj. unfold last_slice.
  rewrite reverse_lookup by (rewrite length_drop; lia).
  rewrite lookup_drop, length_drop. f_equal. lia.
Qed.

Lemma window_length {V} (n : nat) (xs : list V) :
  length (reverse (last_slice n xs)) = n `min` length xs.
Proof. unfold last_slice. rewrite length_reverse, length_drop. lia. Qed.

Lemma fn_kwargs_lookup {value : Type} (args : list string) (xs : list value)
    (j : nat) (p : string) :
  args !! j = Some p → p ≠ "_" →
  (∀ j', j < j' → args !! j' ≠ Some p) →
  j < length xs →
  _fn_kwargs value args xs !! p = xs !! (length xs - 1 - j).
Proof.
  intros Hj Hp Hlast Hlen. unfold _fn_kwargs. rewrite lookup_delete_ne by done.
  assert (j < length args) as Hargs by (by eapply lookup_lt_Some).
  destruct (lookup_lt_is_Some_2 xs (length xs - 1 - j)) as [x Hx]; [lia|].
  rewrite Hx. apply (py_dict_last _ j).
  - apply lookup_zip_with_Some. exists p, x. split_and!; [done | done |].
    by rewrite window_lookup.
  - intros j' v' Hjj' (p' & x' & [= <- <-] & Hp' & _)%lookup_zip_with_Some.
    by apply (Hlast j').
Qed.

(** X1: a name of the offsets, other than the placeholder, that stands at
    index [j] (and nowhere later) is passed the output produced [j + 1]
    positions before the end of the history. *)
Theorem fn_kwargs_reads_back {value : Type} (args : list string) (xs : list value)
    (j : nat) (p : string) :
  args !! j = Some p → p ≠ "_" →
  (∀ j', j < j' → args !! j' ≠ Some p) →
  j < length xs →
  _fn_kwargs value args xs !! p = xs !! (length xs - 1 - j).
Proof. apply fn_kwargs_lookup. Qed.

Lemma fn_kwargs_reads_back_witness :
  _fn_kwargs nat ["p1"; "_"; "p2"] [10; 20; 30; 40] !! "p2" =
  [10; 20; 30; 40] !! (length [10; 20; 30; 40] - 1 - 2).
Proof.
  apply (fn_kwargs_reads_back ["p1"; "_"; "p2"] [10; 20; 30; 40] 2 "p2");
    [reflexivity | done | | simpl; lia].
  intros [|[|[|j']]] Hlt; simpl; try lia; done.
Defined.

(** X2: the keyword arguments hold nothing but names of the offsets, never
    the placeholder, and each value comes from the trailing window of the
    history that is as long as the offsets. *)
Theorem fn_kwargs_only_offsets {value : Type} (args : list string) (xs : list value)
    (p : string) (v : value) :
  _fn_kwargs value args xs !! p = Some v →
  p ≠ "_" ∧ ∃ j, args !! j = Some p ∧ j < length xs ∧ xs !! (length xs - 1 - j) = Some v.
Proof.
  unfold _fn_kwargs. intros Hp.
  assert (p ≠ "_") as Hne by (intros ->; by rewrite lookup_delete_eq in Hp).
  split; [done|]. rewrite lookup_delete_ne in Hp by done.
  apply py_dict_Some in Hp as (j & (p' & x' & [= <- <-] & Hj & Hx)%lookup_zip_with_Some).
  assert (j < length args `min` length xs) as Hlt.
  { rewrite <-window_length. by eapply lookup_lt_Some. }
  exists j. split_and!; [done | lia |].
  rewrite window_lookup in Hx by lia. done.
Qed.

Lemma fn_kwargs_only_offsets_witness :
  "p1" ≠ "_" ∧ ∃ j, ["p1"; "_"; "p2"] !! j = Some "p1" ∧ j < length [10; 20; 30; 40] ∧
    [10; 20; 30; 40] !! (length [10; 20; 30; 40] - 1 - j) = Some 40.
Proof.
  apply (fn_kwargs_only_offsets ["p1"; "_"; "p2"] [10; 20; 30; 40] "p1" 40).
  vm_compute. reflexivity.
Defined.

Lemma py_dict_zip_lookup {V} (names : list string) (xs : list V) i n :
  NoDup names → names !! i = Some n → i < length xs →
  py_dict (zip names xs) !! n = xs !! i.
Proof.
  intros Hnd Hi Hlt. destruct (lookup_lt_is_Some_2 xs i Hlt) as [x Hx]. rewrite Hx.
  apply (py_dict_last _ i).
  - apply lookup_zip_with_Some. by exists n, x.
  - intros j' v' Hij' (n' & x' & [= <- <-] & Hn' & _)%lookup_zip_with_Some.
    pose proof (NoDup_lookup _ _ _ _ Hnd Hi Hn'). lia.
Qed.

Lemma py_dict_zip_keys {V} (names : list string) (xs : list V) :
  dom (py_dict (zip names xs)) = list_to_set (take (length xs) names).
Proof.
  rewrite py_dict_keys. f_equal.
  revert xs. induction names as [|n names IH]; intros [|x xs]; simpl; try done.
  by rewrite IH.
Qed.

(** X3: with pairwise distinct resolved names, and a model type that
    can be called with them and whose instances are read by attribute,
    unflattening a tuple that has one value per name and flattening the
    result gives the tuple back. *)
Theorem flatten_unflatten {value : Type} (call : value → string → exc (object value))
    (names : list string) (ty : model_type value) (xs : list (object value)) :
  NoDup names → accepts ty names → without_get ty → length xs = length names →
  ∃ y, _unflatten value names ty xs = Ok y ∧ _flatten value call names (Some y) = Ok xs.
Proof.
  intros Hnd Hty Hget Hlen.
  set (kwargs := py_dict (zip names xs)).
  assert (∀ i n, names !! i = Some n → ∃ v, kwargs !! n = Some v ∧ xs !! i = Some v) as Hkw.
  { intros i n Hi.
    assert (i < length xs) as Hlt by (rewrite Hlen; by eapply lookup_lt_Some).
    destruct (lookup_lt_is_Some_2 xs i Hlt) as [v Hv]. exists v. split; [|done].
    unfold kwargs. by rewrite (py_dict_zip_lookup names xs i n Hnd Hi Hlt). }
  assert (dom kwargs = list_to_set names) as Hdom.
  { unfold kwargs. by rewrite py_dict_zip_keys, Hlen, firstn_all. }
  assert (∀ f : string → object value,
            (∀ i n, names !! i = Some n → Some (f n) = xs !! i) → f <$> names = xs)
    as Hslots.
  { intros f Hf. apply list_eq. intros i. rewrite list_lookup_fmap.
    destruct (names !! i) as [n|] eqn:Hi; simpl; [by apply Hf|].
    symmetry. apply lookup_ge_None. apply lookup_ge_None in Hi. lia. }
  unfold _unflatten. fold kwargs. destruct ty as [|cls].
  - eexists. split; [done|]. simpl. f_equal. apply Hslots. intros i n Hi.
    by destruct (Hkw i n Hi) as (v & -> & ->).
  - rewrite (new_record_accepts cls names kwargs Hdom Hty).
    destruct Hty as [Hnames Hfields]. destruct Hget as [Hnofield Hnoattr].
    assert (∀ i n, names !! i = Some n →
              ∃ v, getattr (kwargs ∪ field_defaults cls) (class_attrs cls) n = Some v ∧
                   xs !! i = Some v) as Hattr.
    { intros i n Hi. destruct (Hkw i n Hi) as (v & Hv & Hx). exists v. split; [|done].
      unfold getattr. by rewrite (lookup_union_Some_l _ _ _ v Hv). }
    eexists. split; [done|]. rewrite flatten_attributes.
    + f_equal. apply Hslots. intros i n Hi. by destruct (Hattr i n Hi) as (v & -> & ->).
    + unfold getattr. rewrite lookup_union_r.
      * rewrite field_defaults_None; [done|]. intros d Hd. apply Hnofield.
        apply list_elem_of_fmap. by exists ("get", Some d).
      * apply not_elem_of_dom. rewrite Hdom, elem_of_list_to_set. intros Hin.
        rewrite Forall_forall in Hnames. by apply Hnofield, Hnames.
    + apply Forall_forall. intros n [i Hi]%list_elem_of_lookup_1.
      destruct (Hattr i n Hi) as (v & -> & _). by eexists.
Qed.

Lemma flatten_unflatten_witness :
  ∃ y, _unflatten sample ["b"; "a"] (RecordType class_ab) [Obj (Num 1); PyNone] = Ok y ∧
    _flatten sample call_sample ["b"; "a"] (Some y) = Ok [Obj (Num 1); PyNone].
Proof.
  apply (flatten_unflatten call_sample ["b"; "a"] (RecordType class_ab)
           [Obj (Num 1); PyNone]); [by_computation.. | reflexivity].
Defined.

(** X4: [zip] cuts the resolved names to the length of the tuple without
    complaint, so a tuple too short to reach a name is unflattened into a
    namedtuple only if the field of that name has a default: for a field
    without one the call of the class fails. *)
Theorem unflatten_short_tuple {value : Type} (names : list string)
    (cls : record_class value) (xs : list (object value)) (i : nat) (n : string) :
  NoDup names → names !! i = Some n → length xs ≤ i →
  n ∈ (class_fields cls).*1 → (∀ d, (n, Some d) ∉ class_fields cls) →
  _unflatten value names (RecordType cls) xs = Raise TypeError.
Proof.
  intros Hnd Hi Hlen Hfield Hnodef. unfold _unflatten, new_record.
  rewrite decide_False; [done|]. intros [_ Hall]. rewrite Forall_forall in Hall.
  destruct (Hall n Hfield) as [v Hv].
  apply lookup_union_Some_raw in Hv as [Hv|[_ Hv]].
  - assert (n ∈ take (length xs) names) as [j Hj]%list_elem_of_lookup_1.
    { apply (elem_of_list_to_set (C:=gset string)). rewrite <-py_dict_zip_keys.
      apply elem_of_dom. by exists v. }
    pose proof (lookup_lt_Some _ _ _ Hj) as Hjlt. rewrite length_take in Hjlt.
    rewrite lookup_take_lt in Hj by lia.
    pose proof (NoDup_lookup _ _ _ _ Hnd Hi Hj). lia.
  - by rewrite field_defaults_None in Hv.
Qed.

Lemma unflatten_short_tuple_witness :
  _unflatten sample ["b"; "a"] (RecordType class_ab_default) [Obj (Num 1)] = Raise TypeError.
Proof.
  apply (unflatten_short_tuple ["b"; "a"] class_ab_default [Obj (Num 1)] 1 "a").
  - by_computation.
  - reflexivity.
  - simpl. lia.
  - by_computation.
  - intros d [H|[H|H%elem_of_nil]%elem_of_cons]%elem_of_cons;
      [discriminate H | discriminate H | done].
Defined.

(** With a default for the field left over the call succeeds, and the
    field holds the default. *)
Example short_tuple_filled_by_default :
  ∃ y, _unflatten sample ["a"; "b"] (RecordType class_ab_default) [Obj (Num 1)] = Ok y ∧
    item y "a" = Some (Obj (Num 1)) ∧ item y "b" = Some (Obj (Num 0)).
Proof. eexists. split_and!; vm_compute; reflexivity. Qed.

(** ** Cycles *)

Section cycles.
Variables (g : dict deps) (C : list string).
Hypothesis Htrapped : trapped C g.

Lemma trapped_parent k ps :
  k ∈ C → dict_get g k = Some ps → ∃ p, p ∈ default [] ps ∧ p ∈ C.
Proof.
  intros Hk Hps. unfold trapped in Htrapped. rewrite Forall_forall in Htrapped.
  specialize (Htrapped k Hk). rewrite Hps in Htrapped. simpl in Htrapped.
  apply Exists_exists in Htrapped. exact Htrapped.
Qed.

Lemma explore_parents_avoids rec ps st :
  (∀ v st, dict_get (annotate g) (name v) = Some v →
     (∀ k, k ∈ C → (st k < 0)%Z) → avoids C v (rec v st)) →
  (∀ k, k ∈ C → (st k < 0)%Z) →
  match explore_parents (annotate g) rec ps st with
  | Ok (_, st') => (∀ k, k ∈ C → (st' k < 0)%Z) ∧ Forall (λ p, p ∉ C) ps
  | Raise _ => True
  end.
Proof.
  intros Hrec. revert st. induction ps as [|p ps IH]; intros st Hst; simpl.
  { split; [done | constructor]. }
  rewrite dict_get_annotate. destruct (dict_get g p) as [pps|] eqn:Hpps; simpl; [|done].
  specialize (Hrec (mk_Node p pps) st). simpl in Hrec.
  rewrite dict_get_annotate, Hpps in Hrec. specialize (Hrec eq_refl Hst).
  destruct (rec _ st) as [[d st1]|e]; simpl; [|done].
  destruct Hrec as [Hst1 Hp]. specialize (IH st1 Hst1).
  destruct (explore_parents _ _ ps st1) as [[ds st2]|e]; simpl; [|done].
  destruct IH as [Hst2 Hps]. split; [done | by constructor].
Qed.

Lemma depth_explore_avoids fuel v st :
  dict_get (annotate g) (name v) = Some v →
  (∀ k, k ∈ C → (st k < 0)%Z) →
  avoids C v (_depth_explore (annotate g) fuel v st).
Proof.
  revert v st. induction fuel as [|fuel IH]; intros [k ps] st Hv Hst; simpl; [done|].
  simpl in Hv. rewrite dict_get_annotate in Hv.
  destruct (dict_get g k) as [ps'|] eqn:Hk; [|done]. injection Hv as ->.
  assert (k ∈ C → ∃ p, p ∈ default [] ps ∧ p ∈ C) as Hparent.
  { intros HkC. by apply trapped_parent with k. }
  destruct (st k <? 0)%Z eqn:Hneg; simpl.
  2:{ apply Z.ltb_ge in Hneg. split; [done|]. intros HkC. specialize (Hst k HkC). lia. }
  destruct (truthy ps) eqn:Htruthy; simpl.
  2:{ assert (k ∉ C) as HkC.
      { intros (p & Hp & _)%Hparent. destruct ps as [[|??]|]; try done;
          by apply elem_of_nil in Hp. }
      split; [|done]. intros k' Hk'. rewrite fn_lookup_insert_ne; [auto|].
      by intros ->. }
  pose proof (explore_parents_avoids (_depth_explore (annotate g) fuel)
                (default [] ps) st IH Hst) as Hps.
  destruct (explore_parents _ _ _ st) as [[ds st1]|e]; simpl; [|done].
  destruct Hps as [Hst1 Hall].
  assert (k ∉ C) as HkC.
  { intros (p & Hp & HpC)%Hparent. rewrite Forall_forall in Hall. by apply (Hall p). }
  split; [|done]. intros k' Hk'. rewrite fn_lookup_insert_ne; [auto|]. by intros ->.
Qed.

Lemma depth_loop_avoids limit (l : list (string * deps)) st :
  is_dict g → Forall (λ kv, kv ∈ g) l →
  (∀ k, k ∈ C → (st k < 0)%Z) →
  match for_each (λ v st, '(_, st') ← _depth_explore (annotate g) limit v st; Ok st')
          (map (λ kv, mk_Node kv.1 kv.2) l) st with
  | Ok st' => Forall (λ kv, kv.1 ∉ C) l
  | Raise _ => True
  end.
Proof.
  intros Hdict Hl. revert st. induction Hl as [|[k ps] l Hin _ IH]; intros st Hst; simpl.
  { constructor. }
  pose proof (depth_explore_avoids limit (mk_Node k ps) st) as Hv. simpl in Hv.
  rewrite dict_get_annotate, (dict_get_elem_of g k ps Hdict Hin) in Hv.
  specialize (Hv eq_refl Hst).
  destruct (_depth_explore _ _ _ st) as [[d st1]|e]; simpl; [|done].
  destruct Hv as [Hst1 HkC]. specialize (IH st1 Hst1).
  destruct (for_each _ _ st1) as [st2|e]; [|done]. by constructor.
Qed.
End cycles.

(** X5: a collection with a cycle is not resolved, whatever the recursion
    limit: when all declared dependencies are keys and some nodes depend
    on each other in a circle, [_depth], and with it [_best_order], ends
    in [RecursionError]. *)
Theorem cycle_exhausts_recursion limit (g : dict deps) (C : list string) :
  is_dict g → closed g → C ≠ [] → trapped C g →
  _depth limit g = Raise RecursionError ∧ _best_order limit g = Raise RecursionError.
Proof.
  intros Hdict Hclosed HC Htrapped.
  cut (_depth limit g = Raise RecursionError).
  { intros H. split; [done|]. unfold _best_order. by rewrite H. }
  pose proof (depth_outcome g Hdict limit) as Hout.
  pose proof (depth_loop_avoids g C Htrapped limit g init_depths Hdict) as Hloop.
  unfold _depth in *. rewrite values_annotate in *.
  destruct (for_each _ _ init_depths) as [st|e]; simpl in *.
  - exfalso. destruct C as [|k0 C0]; [done|].
    assert (Forall (λ kv : string * deps, kv.1 ∉ k0 :: C0) g) as Hall.
    { apply Hloop; [by apply Forall_forall | done]. }
    unfold trapped in Htrapped. apply Forall_cons in Htrapped as [Hex _].
    destruct (dict_get g k0) as [ps|] eqn:Hk0; simpl in Hex.
    + apply dict_get_Some in Hk0. rewrite Forall_forall in Hall.
      apply (Hall _ Hk0). by left.
    + by apply Exists_nil in Hex.
  - destruct Hout as [->|(p & -> & Hno & k & ps & Hin & Hp)]; [done|].
    exfalso. apply Hno. unfold closed in Hclosed. rewrite Forall_forall in Hclosed.
    specialize (Hclosed _ Hin). simpl in Hclosed. rewrite Forall_forall in Hclosed. auto.
Qed.

Lemma cycle_exhausts_recursion_witness :
  _depth 50 g_cycle = Raise RecursionError ∧ _best_order 50 g_cycle = Raise RecursionError.
Proof.
  apply (cycle_exhausts_recursion 50 g_cycle ["a"; "b"]);
    [by_computation | by_computation | done | by_computation].
Defined.

(** ** More on depths and on the four tuples *)

Lemma foldl_max_elem (a x : Z) (l : list Z) : x ∈ l → (x ≤ foldl Z.max a l)%Z.
Proof.
  revert a. induction l as [|y l IH]; intros a; [by intros ?%elem_of_nil|].
  intros [->|Hin]%elem_of_cons; simpl.
  - pose proof (foldl_max_ge (Z.max a y) l). lia.
  - by apply IH.
Qed.

Lemma py_max_elem (x : Z) (l : list Z) : x ∈ l → (x ≤ py_max l)%Z.
Proof.
  unfold py_max. destruct l as [|y l]; [by intros ?%elem_of_nil|].
  intros [->|Hin]%elem_of_cons; [apply foldl_max_ge | by apply foldl_max_elem].
Qed.

(** X6: on an acyclic collection the depth of a node is larger than the
    depth of each of its parents, so the descending sort of [_best_order]
    starts the exploration of a node before that of its parents. *)
Theorem parents_are_shallower limit rank (g : dict deps) :
  is_dict g → closed g → ranked rank g → within limit rank g →
  ∃ st, _depth limit g = Ok (annotate g, st) ∧
    ∀ k ps p, (k, Some ps) ∈ g → p ∈ ps → (0 ≤ st p < st k)%Z.
Proof.
  intros Hdict Hclosed Hranked Hwithin.
  destruct (depth_total g rank Hclosed Hranked Hdict limit Hwithin) as (st & Hst & Hinv & Hpos).
  exists st. split; [done|]. intros k ps p Hin Hp.
  assert (0 ≤ st k)%Z as Hk.
  { apply Hpos. apply list_elem_of_fmap. by exists (k, Some ps). }
  apply dict_get_elem_of in Hin; [|done].
  destruct (Hinv k (Some ps) Hin) as [_ Hset]. destruct (Hset Hk) as [Heq Hall].
  simpl in Hall. rewrite Forall_forall in Hall. split; [by apply Hall|].
  rewrite Heq. unfold depth_of. destruct ps as [|q ps]; [by apply elem_of_nil in Hp|].
  simpl truthy. cbv iota.
  assert (st p ≤ py_max (st <$> default [] (Some (q :: ps))))%Z; [|lia].
  apply py_max_elem. by apply (list_elem_of_fmap_2 st).
Qed.

Lemma parents_are_shallower_witness :
  ∃ st, _depth 10 g_doc = Ok (annotate g_doc, st) ∧
    ∀ k ps p, (k, Some ps) ∈ g_doc → p ∈ ps → (0 ≤ st p < st k)%Z.
Proof. apply (parents_are_shallower 10 rank_doc g_doc); by_computation. Defined.

(** X7: on an acyclic collection a node without declared arguments keeps
    its declaration in the resolved order: [None] for an instance, the
    empty tuple for a callable without arguments. *)
Theorem independent_entries_kept limit rank (g : dict deps) :
  is_dict g → closed g → ranked rank g → within limit rank g →
  ∃ res, _best_order limit g = Ok res ∧
    ∀ k ps, (k, ps) ∈ g → truthy ps = false → (k, ps) ∈ res.
Proof.
  intros Hdict Hclosed Hranked Hwithin.
  destruct (best_order_total g rank Hdict Hclosed Hranked limit Hwithin)
    as (res & Hres & Hperm & Hall).
  exists res. split; [done|]. intros k ps Hin Hfalsy.
  assert (k ∈ res.*1) as ([k' a] & -> & He)%list_elem_of_fmap.
  { rewrite Hperm. apply list_elem_of_fmap. by exists (k, ps). }
  rewrite Forall_forall in Hall. destruct (Hall _ He) as (ps' & Hk & Hentry).
  simpl in *. rewrite (dict_get_elem_of g k' ps Hdict Hin) in Hk.
  injection Hk as <-. rewrite Hfalsy in Hentry. by subst a.
Qed.

Lemma independent_entries_kept_witness :
  ∃ res, _best_order 10 g_doc = Ok res ∧
    ∀ k ps, (k, ps) ∈ g_doc → truthy ps = false → (k, ps) ∈ res.
Proof. apply (independent_entries_kept 10 rank_doc g_doc); by_computation. Defined.

Lemma map_exc_lookup {A B} (f : A → exc B) (l : list A) (ys : list B) i x :
  map_exc f l = Ok ys → l !! i = Some x → ∃ y, ys !! i = Some y ∧ f x = Ok y.
Proof.
  revert ys i. induction l as [|a l IH]; intros ys i; simpl; [by intros _ ?|].
  intros (y & Hy & H)%exc_bind_ok. apply exc_bind_ok in H as (ys' & Hys & [= <-]).
  destruct i as [|i]; simpl.
  - intros [= <-]. by exists y.
  - by apply IH.
Qed.

(** X8: the four tuples are aligned on the resolved order: at the position
    of an entry stand its name, its offsets, the producer the collection
    holds under that name, and the wrapper made of that producer and those
    offsets. *)
Theorem four_tuples_aligned {maker value : Type}
    (required_args : maker → deps) limit rank (named_makers : dict maker) :
  let g := map (λ kv, (kv.1, required_args kv.2)) named_makers in
  named_makers ≠ [] →
  is_dict g → closed g → ranked rank g → within limit rank g →
  ∃ res f, _best_order limit g = Ok res ∧
    _prob_chain_rule_flatten maker value required_args limit named_makers = Ok f ∧
    ∀ i n a, res !! i = Some (n, a) →
      dist_fn_name _ _ f !! i = Some n ∧
      dist_fn_args _ _ f !! i = Some a ∧
      ∃ m w, dict_get named_makers n = Some m ∧
        required_args m = default None (dict_get g n) ∧
        dist_fn _ _ f !! i = Some (Some m) ∧
        dist_fn_wrapped _ _ f !! i = Some w ∧
        ∀ xs, w xs = _make maker value m a xs.
Proof.
  intros g Hne Hdict Hclosed Hranked Hwithin.
  destruct (best_order_total g rank Hdict Hclosed Hranked limit Hwithin)
    as (res & Hres & Hperm & _).
  assert (keys g = keys named_makers) as Hkeys.
  { unfold keys, g. by rewrite <-list_fmap_compose. }
  destruct (map_exc_total (λ e : entry,
      match dict_get named_makers e.1 with
      | Some m => Ok (_make maker value m e.2)
      | None => Raise (KeyError e.1)
      end) res) as [ws Hws].
  { apply Forall_forall. intros e He.
    assert (e.1 ∈ keys named_makers) as [m Hm]%dict_get_is_Some.
    { rewrite <-Hkeys, <-Hperm. by apply list_elem_of_fmap_2. }
    rewrite Hm. by eexists. }
  exists res. unfold _prob_chain_rule_flatten. fold g. rewrite Hres. cbn [mbind exc_bind].
  assert (unzip_pairs res = Ok (res.*1, res.*2)) as ->.
  { destruct res as [|e res]; [|done]. exfalso. apply Hne.
    apply Permutation_nil_l in Hperm. unfold keys, g in Hperm. by destruct named_makers. }
  cbn [mbind exc_bind]. rewrite Hws. cbn [mbind exc_bind].
  eexists. split_and!; [done | done |]. intros i n a Hi.
  cbn [dist_fn_name dist_fn_args dist_fn dist_fn_wrapped].
  change (map (dict_get named_makers) res.*1) with (dict_get named_makers <$> res.*1).
  rewrite !list_lookup_fmap, Hi. simpl. split_and!; [done | done |].
  destruct (map_exc_lookup _ _ _ _ _ Hws Hi) as (w & Hw & Hmake). simpl in Hmake.
  destruct (dict_get named_makers n) as [m|] eqn:Hm; [|done].
  injection Hmake as <-. exists m, (_make maker value m a).
  split_and!; [done | | done | done | done].
  unfold g. clear -Hm. induction named_makers as [|[k m'] l IH]; [done|].
  simpl in *. destruct (decide (k = n)); [by injection Hm as -> | by apply IH].
Qed.

Lemma four_tuples_aligned_witness :
  ∃ res f, _best_order 10 g_doc = Ok res ∧
    _prob_chain_rule_flatten deps nat id 10 makers_doc = Ok f ∧
    ∀ i n a, res !! i = Some (n, a) →
      dist_fn_name _ _ f !! i = Some n ∧
      dist_fn_args _ _ f !! i = Some a ∧
      ∃ m w, dict_get makers_doc n = Some m ∧
        id m = default None (dict_get g_doc n) ∧
        dist_fn _ _ f !! i = Some (Some m) ∧
        dist_fn_wrapped _ _ f !! i = Some w ∧
        ∀ xs, w xs = _make deps nat m a xs.
Proof.
  apply (four_tuples_aligned (value:=nat) id 10 rank_doc makers_doc);
    [done | by_computation..].
Defined.

(** ** Collections without shared parents *)

Lemma unshared_parents (g : dict deps) k1 ps1 k2 ps2 p :
  unshared g → (k1, ps1) ∈ g → (k2, ps2) ∈ g →
  p ∈ default [] ps1 → p ∈ default [] ps2 → (k1, ps1) = (k2, ps2).
Proof.
  unfold unshared. induction g as [|kv g IH]; [by intros _ ?%elem_of_nil|].
  rewrite fmap_cons. simpl. intros (Hkv & Hdisj & Hg)%NoDup_app.
  assert (∀ k ps, (k, ps) ∈ g → p ∈ default [] ps →
            p ∈ mjoin ((λ kv, default [] kv.2) <$> g)) as Hjoin.
  { intros k ps Hin Hp. apply list_elem_of_join. exists (default [] ps).
    split; [done|]. apply list_elem_of_fmap. by exists (k, ps). }
  intros [<-|H1]%elem_of_cons [E|H2]%elem_of_cons Hp1 Hp2; simpl in *;
    try (rewrite <-E in *; clear E).
  - done.
  - destruct (Hdisj p Hp1). by apply (Hjoin k2 ps2).
  - destruct (Hdisj p Hp2). by apply (Hjoin k1 ps1).
  - by apply IH.
Qed.

Lemma unshared_NoDup (g : dict deps) k ps :
  unshared g → (k, ps) ∈ g → NoDup (default [] ps).
Proof.
  unfold unshared. induction g as [|kv g IH]; [by intros _ ?%elem_of_nil|].
  rewrite fmap_cons. simpl. intros (Hkv & _ & Hg)%NoDup_app [<-|Hin]%elem_of_cons; auto.
Qed.

Lemma addressed_app_l g (r ext : list entry) a :
  a < length r → addressed g r a → addressed g (r ++ ext) a.
Proof.
  intros Ha Hadd k o Hlook. rewrite lookup_app_l in Hlook by done.
  destruct (Hadd k o Hlook) as [Hoff Hpar]. rewrite fmap_app. split.
  - intros j p Hj Hp. apply lookup_app_l_Some. by apply Hoff.
  - intros ps p Hk Hp. destruct (Hpar ps p Hk Hp) as (a' & Hlt & Ha').
    exists a'. split; [done|]. by apply lookup_app_l_Some.
Qed.

Lemma addressed_app_r g (r1 r2 : list entry) a :
  addressed g r2 a → addressed g (r1 ++ r2) (length r1 + a).
Proof.
  intros Hadd k o Hlook. rewrite lookup_app_r in Hlook by lia.
  replace (length r1 + a - length r1) with a in Hlook by lia.
  destruct (Hadd k o Hlook) as [Hoff Hpar]. rewrite fmap_app. split.
  - intros j p Hj Hp. rewrite lookup_app_r by (rewrite length_fmap; lia).
    rewrite length_fmap. replace (length r1 + a + 1 + j - length r1) with (a + 1 + j) by lia.
    by apply Hoff.
  - intros ps p Hk Hp. destruct (Hpar ps p Hk Hp) as (a' & Hlt & Ha').
    exists (length r1 + a'). split; [lia|].
    rewrite lookup_app_r by (rewrite length_fmap; lia).
    rewrite length_fmap. by replace (length r1 + a' - length r1) with a' by lia.
Qed.

Lemma self_contained_app g (r1 r2 : list entry) :
  self_contained g r1 → self_contained g r2 → self_contained g (r1 ++ r2).
Proof.
  intros H1 H2 a. destruct (decide (a < length r1)) as [Hlt|Hge].
  - by apply addressed_app_l.
  - replace a with (length r1 + (a - length r1)) by lia. by apply addressed_app_r.
Qed.

Lemma self_contained_nil g : self_contained g [].
Proof. intros a k o Hlook. by rewrite lookup_nil in Hlook. Qed.

Lemma self_contained_cons g k (a : deps) (rest : list entry) :
  self_contained g rest →
  (∀ j p, default [] a !! j = Some p → p ≠ "_" → rest.*1 !! j = Some p) →
  (∀ ps p, dict_get g k = Some ps → p ∈ default [] ps → ∃ j, rest.*1 !! j = Some p) →
  self_contained g ((k, a) :: rest).
Proof.
  intros Hrest Hoff Hpar [|i].
  - intros k' o [= <- <-]. split.
    + intros j p Hj Hp. simpl. by apply Hoff.
    + intros ps p Hk Hp. destruct (Hpar ps p Hk Hp) as [j Hj].
      exists (S j). split; [lia | done].
  - apply (addressed_app_r g [(k, a)] rest i). apply Hrest.
Qed.

Section tree.
Variables (g : dict deps) (rank : string → nat).
Hypothesis Hdict : is_dict g.
Hypothesis Hclosed : closed g.
Hypothesis Hranked : ranked rank g.
Hypothesis Hunshared : unshared g.

Lemma mark_down_closed s k a :
  down_closed g s → children_visited g k s →
  down_closed g (mk_state (<[k:=(-1)%Z]> (depth s)) (result s ++ [(k, a)])).
Proof.
  intros Hdown Hchildren k' ps' p Hk' Hp. simpl.
  destruct (decide (k = k')) as [<-|Hkk']; [by rewrite fn_lookup_insert|].
  rewrite (fn_lookup_insert_ne _ k k') by done.
  destruct (decide (k = p)) as [<-|Hkp]; [intros _; by apply (Hchildren k' ps')|].
  rewrite fn_lookup_insert_ne by done. by apply (Hdown k' ps').
Qed.

Lemma mark_visited_kept s k a :
  visited_kept s (mk_state (<[k:=(-1)%Z]> (depth s)) (result s ++ [(k, a)])).
Proof.
  intros k' Hk'. simpl. destruct (decide (k = k')) as [<-|]; [by rewrite fn_lookup_insert|].
  by rewrite fn_lookup_insert_ne.
Qed.

Lemma tree_loop_spec fuel vs :
  (∀ k ps s, dict_get g k = Some ps → rank k < fuel → down_closed g s →
     ¬ (depth s k < 0)%Z → children_visited g k s →
     tree_post g k s (_best_order_explore (annotate g) fuel (mk_Node k ps) s)) →
  Forall (λ v, dict_get g (name v) = Some (parents v) ∧ rank (name v) < fuel) vs →
  NoDup (name <$> vs) →
  ∀ d s (pre : list entry) nm o (mid : list entry),
    result s = pre ++ (nm, Some o) :: mid →
    (Z.of_nat (length o) + d = Z.of_nat (length mid))%Z → (0 ≤ d)%Z →
    (∀ j p, o !! j = Some p → p ≠ "_" → mid.*1 !! j = Some p) →
    self_contained g mid →
    down_closed g s →
    Forall (λ v, ¬ (depth s (name v) < 0)%Z ∧ children_visited g (name v) s) vs →
    ∃ s' o' mid',
      explore_loop (_best_order_explore (annotate g) fuel) (length pre) vs d s = Ok s' ∧
      down_closed g s' ∧ visited_kept s s' ∧
      reached_from g (name <$> vs) s s' ∧
      result s' = pre ++ (nm, Some o') :: mid' ∧
      (∀ j p, o' !! j = Some p → p ≠ "_" → mid'.*1 !! j = Some p) ∧
      self_contained g mid' ∧
      (∀ p, (p ∈ name <$> vs ∨ ∃ j, mid.*1 !! j = Some p) → ∃ j, mid'.*1 !! j = Some p).
Proof.
  intros Hrec Hvs. induction Hvs as [|[k ps] vs [Hk Hfuel] _ IH];
    intros Hnd d s pre nm o mid Hres HL1 Hd HL2 Hmid Hdown Hfresh.
  { exists s, o, mid. split_and!; try done.
    - by intros ?.
    - intros w Hw Hnw. done.
    - intros p [Hp|Hp]; [by apply elem_of_nil in Hp | done]. }
  simpl in Hk, Hfuel. rewrite fmap_cons in Hnd. simpl in Hnd.
  apply NoDup_cons in Hnd as [Hkvs Hnd].
  apply Forall_cons in Hfresh as [[Hunvisited Hchildren] Hfresh]. simpl in *.
  destruct (Hrec k ps s Hk Hfuel Hdown Hunvisited Hchildren)
    as (s1 & -> & Hdown1 & Hkept1 & Hvis1 & Hreach1 & a & rest & Hres1 & Hblock).
  cbn [mbind exc_bind]. rewrite Hres1, Hres, <-app_assoc. simpl. rewrite extend_at.
  set (xs := replicate (Z.to_nat d) "_" ++ [k]).
  set (B := (k, a) :: rest) in *.
  set (s2 := mk_state _ _).
  assert (length xs = Z.to_nat d + 1) as Hxs.
  { unfold xs. rewrite length_app, length_replicate. simpl. lia. }
  assert ((mid ++ B).*1 !! length mid = Some k) as Hat.
  { rewrite fmap_app, lookup_app_r by (rewrite length_fmap; lia).
    by rewrite length_fmap, Nat.sub_diag. }
  destruct (IH Hnd
              (Z.of_nat (length (pre ++ (nm, Some o) :: mid ++ B))
               - Z.of_nat (length (pre ++ (nm, Some o) :: mid)) - 1)%Z
              s2 pre nm (o ++ xs) (mid ++ B))
    as (s' & o' & mid' & Hloop & Hdown' & Hkept' & Hreach' & Hres' & HL2' & Hmid' & Hpos').
  - done.
  - rewrite !length_app. simpl. rewrite !length_app, Hxs. simpl. lia.
  - rewrite !length_app. simpl. rewrite !length_app. simpl. lia.
  - intros j p [Hj|[Hge Hj]]%lookup_app_Some Hp.
    + rewrite fmap_app. apply lookup_app_l_Some. by apply HL2.
    + unfold xs in Hj. apply lookup_app_Some in Hj as [Hj|[Hge' Hj]].
      * apply lookup_replicate in Hj as [-> _]. done.
      * apply list_lookup_singleton_Some in Hj as [Hj0 <-].
        rewrite length_replicate in Hge', Hj0.
        replace j with (length mid) by lia. exact Hat.
  - by apply self_contained_app.
  - exact Hdown1.
  - rewrite Forall_forall in Hfresh |- *. intros v Hv.
    destruct (Hfresh v Hv) as [Hnv Hcv]. split.
    + simpl. intros Hv1. destruct (Hreach1 (name v) Hv1 Hnv) as [Hroot|(c & cps & Hc & Hin & _ & Hnc)].
      * apply list_elem_of_singleton in Hroot. apply Hkvs. rewrite <-Hroot.
        by apply list_elem_of_fmap_2.
      * apply Hnc. by apply (Hcv c cps).
    + intros c cps Hc Hin. simpl. apply Hkept1. by apply (Hcv c cps).
  - exists s', o', mid'. split_and!; try done.
    + intros k' Hk'. apply Hkept'. simpl. by apply Hkept1.
    + intros w Hw Hnw. destruct (decide (depth s1 w < 0)%Z) as [Hw1|Hw1].
      * destruct (Hreach1 w Hw1 Hnw) as [->%list_elem_of_singleton|(c & cps & Hc & Hin & Hvc & Hnc)].
        -- left. by left.
        -- right. exists c, cps. split_and!; try done. apply Hkept'. exact Hvc.
      * destruct (Hreach' w Hw Hw1) as [Hroot|(c & cps & Hc & Hin & Hvc & Hnc)].
        -- left. by right.
        -- right. exists c, cps. split_and!; try done. intros Hsc. apply Hnc.
           simpl. by apply Hkept1.
    + intros p [[->|Hp]%elem_of_cons|[j Hj]]; apply Hpos'.
      * right. by exists (length mid).
      * by left.
      * right. exists j. rewrite fmap_app. by apply lookup_app_l_Some.
Qed.

Lemma tree_explore_spec fuel k ps s :
  dict_get g k = Some ps → rank k < fuel → down_closed g s →
  ¬ (depth s k < 0)%Z → children_visited g k s →
  tree_post g k s (_best_order_explore (annotate g) fuel (mk_Node k ps) s).
Proof.
  revert k ps s. induction fuel as [|fuel IH];
    intros k ps s Hk Hfuel Hdown Hunvisited Hchildren; [lia|].
  simpl. destruct (depth s k <? 0)%Z eqn:Hneg; [by apply Z.ltb_lt in Hneg|].
  clear Hneg.
  assert (∀ ps', dict_get g k = Some ps' → ps' = ps) as Hsame by (intros; congruence).
  destruct (truthy ps) eqn:Htruthy; simpl.
  2:{ eexists. split_and!; [done | by apply mark_down_closed | apply mark_visited_kept | | |].
      - simpl. by rewrite fn_lookup_insert.
      - intros w Hw Hnw. simpl in Hw. left. apply list_elem_of_singleton.
        destruct (decide (k = w)) as [<-|]; [done|].
        by rewrite fn_lookup_insert_ne in Hw.
      - exists ps, []. split; [done|]. apply self_contained_cons.
        + apply self_contained_nil.
        + intros j p Hj. destruct ps as [[|??]|]; try done; by rewrite lookup_nil in Hj.
        + intros ps' p ->%Hsame Hp. destruct ps as [[|??]|]; try done;
            by apply elem_of_nil in Hp. }
  assert (Forall (λ p, p ∈ keys g ∧ rank p < rank k) (default [] ps)) as Hparents.
  { apply Forall_forall. intros p Hp. by apply (parent_facts g rank Hclosed Hranked k ps p). }
  destruct (sorted_parents_spec g (default [] ps) (<[k:=(-1)%Z]> (depth s)))
    as (vs & -> & Hnames & Hnodes).
  { eapply Forall_impl; [exact Hparents|]. by intros p [? _]. }
  cbn [mbind exc_bind].
  set (s1 := mk_state (<[k:=(-1)%Z]> (depth s)) (result s ++ [(k, Some [])])).
  assert (∀ v, v ∈ vs → name v ∈ default [] ps) as Hvs.
  { intros v Hv. rewrite <-Hnames. by apply list_elem_of_fmap_2. }
  rewrite Forall_forall in Hparents.
  destruct (tree_loop_spec fuel vs IH) with (d := 0%Z) (s := s1)
      (pre := result s) (nm := k) (o := @nil string) (mid := @nil entry)
    as (s' & o' & mid' & -> & Hdown' & Hkept' & Hreach' & Hres' & HL2 & Hmid' & Hpos').
  - apply Forall_forall. intros v Hv. rewrite Forall_forall in Hnodes.
    split; [by apply Hnodes|]. destruct (Hparents _ (Hvs v Hv)). lia.
  - rewrite Hnames. apply (unshared_NoDup g k ps Hunshared). by apply dict_get_Some.
  - done.
  - done.
  - done.
  - intros j p Hj. by rewrite lookup_nil in Hj.
  - apply self_contained_nil.
  - by apply mark_down_closed.
  - apply Forall_forall. intros v Hv. pose proof (Hvs v Hv) as Hp.
    destruct (Hparents _ Hp) as [_ Hlt].
    assert (k ≠ name v) as Hne by (intros E; rewrite <-E in Hlt; lia).
    split.
    + simpl. rewrite fn_lookup_insert_ne by done. intros Hv1.
      apply Hunvisited. by apply (Hdown k ps (name v)).
    + intros c cps Hc Hin. simpl.
      assert ((c, cps) = (k, ps)) as [= -> ->].
      { apply (unshared_parents g c cps k ps (name v)); try done; by apply dict_get_Some. }
      by rewrite fn_lookup_insert.
  - exists s'. split_and!; [done | done | | | |].
    + intros k' Hk'. apply Hkept'. by apply mark_visited_kept.
    + apply Hkept'. simpl. by rewrite fn_lookup_insert.
    + intros w Hw Hnw. destruct (decide (k = w)) as [<-|Hkw]; [left; by left|].
      right. assert (¬ (depth s1 w < 0)%Z) as Hnw1.
      { simpl. by rewrite fn_lookup_insert_ne. }
      destruct (Hreach' w Hw Hnw1) as [Hroot|(c & cps & Hc & Hin & Hvc & Hnc)].
      * exists k, ps. split_and!; [done | by rewrite <-Hnames | | done].
        apply Hkept'. simpl. by rewrite fn_lookup_insert.
      * exists c, cps. split_and!; try done. intros Hsc. apply Hnc.
        by apply mark_visited_kept.
    + exists (Some o'), mid'. split; [done|]. apply self_contained_cons; [done | done |].
      intros ps' p ->%Hsame Hp. apply Hpos'. left. by rewrite Hnames.
Qed.

Lemma depth_inv_parent_lt (st : depths) k ps p :
  depth_inv g st → dict_get g k = Some ps → (0 ≤ st k)%Z → p ∈ default [] ps →
  (st p < st k)%Z.
Proof.
  intros Hinv Hk Hpos Hp. destruct (Hinv k ps Hk) as [_ Hset].
  destruct (Hset Hpos) as [-> _]. unfold depth_of.
  destruct (truthy ps) eqn:Htruthy.
  - assert (st p ≤ py_max (st <$> default [] ps))%Z; [|lia].
    apply py_max_elem. by apply (list_elem_of_fmap_2 st).
  - destruct ps as [[|??]|]; try done; by apply elem_of_nil in Hp.
Qed.

Lemma tree_order_spec limit (D : depths) (l : list _Node) s :
  (∀ k ps p, dict_get g k = Some ps → p ∈ default [] ps → (D p < D k)%Z) →
  Forall (λ v, dict_get g (name v) = Some (parents v) ∧ rank (name v) < limit) l →
  StronglySorted (λ u v, D (name v) ≤ D (name u))%Z l →
  (∀ k, k ∈ keys g → k ∈ name <$> l ∨ (depth s k < 0)%Z) →
  down_closed g s → self_contained g (result s) →
  ∃ s', for_each (_best_order_explore (annotate g) limit) l s = Ok s' ∧
    self_contained g (result s').
Proof.
  intros HD Hl. revert s. induction Hl as [|[k ps] l [Hk Hlim] _ IH];
    intros s Hsorted Hkeys Hdown Hself.
  { by exists s. }
  simpl in Hk, Hlim, Hkeys. apply StronglySorted_inv in Hsorted as [Hsorted Hhead].
  simpl in Hhead.
  simpl. destruct (decide (depth s k < 0)%Z) as [Hvisited|Hunvisited].
  - destruct limit as [|fuel]; [lia|]. simpl.
    apply Z.ltb_lt in Hvisited as Hb. rewrite Hb. cbn [mbind exc_bind].
    apply IH; try done. intros k' Hk'.
    destruct (Hkeys k' Hk') as [[->|Hin]%elem_of_cons|Hv]; auto.
  - destruct (tree_explore_spec limit k ps s Hk Hlim Hdown Hunvisited)
      as (s1 & -> & Hdown1 & Hkept1 & Hvis1 & _ & a & rest & Hres1 & Hblock).
    { intros c cps Hc Hin. pose proof (HD c cps k Hc Hin) as Hlt.
      assert (c ∈ keys g) as Hckey by (apply dict_get_is_Some; eauto).
      destruct (Hkeys c Hckey) as [[->|Hcl]%elem_of_cons|Hv]; [lia | | done].
      apply list_elem_of_fmap in Hcl as (v & -> & Hv).
      rewrite Forall_forall in Hhead. specialize (Hhead v Hv). simpl in Hhead. lia. }
    cbn [mbind exc_bind]. apply IH; try done.
    + intros k' Hk'. destruct (Hkeys k' Hk') as [[->|Hin]%elem_of_cons|Hv]; auto.
    + rewrite Hres1. by apply self_contained_app.
Qed.

(** Without shared parents, every entry of the list that [_best_order]
    builds, in the order of the appends, addresses its parents. *)
Lemma tree_self_contained limit :
  within limit rank g →
  ∃ r, _best_order limit g = Ok (reverse r) ∧ self_contained g r ∧ NoDup r.*1.
Proof.
  intros Hwithin.
  destruct (best_order_total g rank Hdict Hclosed Hranked limit Hwithin)
    as (res & Hres & Hperm & _).
  unfold _best_order in *.
  destruct (depth_total g rank Hclosed Hranked Hdict limit Hwithin) as (st & Hst & Hinv & Hpos).
  rewrite Hst in *. cbn [mbind exc_bind] in *.
  destruct (tree_order_spec limit st
              (sorted (λ v, st (name v)) true (values (annotate g)))
              (mk_state st []))
    as (s' & Hloop & Hself).
  - intros k ps p Hk Hp. apply (depth_inv_parent_lt st k ps p); try done.
    apply Hpos. apply dict_get_is_Some. eauto.
  - rewrite sorted_perm, values_annotate. apply Forall_fmap, Forall_forall.
    intros [k ps] Hkv. simpl. split; [by apply dict_get_elem_of|].
    unfold within in Hwithin. rewrite Forall_forall in Hwithin. apply (Hwithin _ Hkv).
  - apply sorted_descending.
  - intros k Hk. left. rewrite sorted_perm, values_annotate, <-list_fmap_compose.
    exact Hk.
  - intros k ps p Hk Hp. simpl. intros Hneg.
    destruct (parent_facts g rank Hclosed Hranked k ps p Hk Hp) as [Hkey _].
    specialize (Hpos p Hkey). lia.
  - apply self_contained_nil.
  - rewrite Hloop in Hres. cbn [mbind exc_bind] in Hres. injection Hres as <-.
    exists (result s'). rewrite Hloop. split_and!; [done | done |].
    rewrite fmap_reverse, reverse_Permutation in Hperm. rewrite Hperm. exact Hdict.
Qed.
End tree.

Lemma self_contained_valid g (r : list entry) :
  NoDup r.*1 → self_contained g r → topologically_valid g (reverse r).
Proof.
  intros Hnd Hself k ps p i j Hk Hp Hi Hj.
  rewrite fmap_reverse in Hi, Hj.
  apply reverse_lookup_Some in Hi as [Hi Hilt], Hj as [Hj Hjlt].
  rewrite list_lookup_fmap in Hi.
  destruct (r !! (length r.*1 - S i)) as [[k' o]|] eqn:Hentry; [|done].
  injection Hi as ->.
  destruct (Hself _ k o Hentry) as [_ Hpar].
  destruct (Hpar (Some ps) p Hk Hp) as (a' & Hlt & Ha').
  pose proof (NoDup_lookup _ _ _ _ Hnd Ha' Hj). lia.
Qed.

Lemma self_contained_offsets g (r : list entry) :
  self_contained g r → offsets_address_parents (reverse r).
Proof.
  intros Hself i k o j p Hi Hj Hp.
  apply reverse_lookup_Some in Hi as [Hi Hilt].
  destruct (Hself _ k (Some o) Hi) as [Hoff _].
  specialize (Hoff j p Hj Hp). pose proof (lookup_lt_Some _ _ _ Hoff) as Hlt.
  rewrite length_fmap in Hlt. split; [lia|].
  rewrite fmap_reverse, reverse_lookup by (rewrite length_fmap; lia).
  rewrite length_fmap. rewrite <-Hoff. f_equal. lia.
Qed.

(** X9: on an acyclic collection in which no name is declared as a
    dependency twice, the resolved order is topologically valid: every
    parent stands before its child. *)
Theorem unshared_order_valid limit rank (g : dict deps) :
  is_dict g → closed g → ranked rank g → within limit rank g → unshared g →
  ∃ res, _best_order limit g = Ok res ∧ topologically_valid g res.
Proof.
  intros Hdict Hclosed Hranked Hwithin Hunshared.
  destruct (tree_self_contained g rank Hdict Hclosed Hranked Hunshared limit Hwithin)
    as (r & Hr & Hself & Hnd).
  exists (reverse r). split; [done|]. by apply self_contained_valid.
Qed.

Lemma unshared_order_valid_witness :
  ∃ res, _best_order 10 g_tree = Ok res ∧ topologically_valid g_tree res.
Proof. apply (unshared_order_valid 10 rank_tree g_tree); by_computation. Defined.

(** X10: on such a collection the offsets address the parents: a name at
    index [j] of the offsets of position [i] is the name of position
    [i - 1 - j]. *)
Theorem unshared_offsets_address limit rank (g : dict deps) :
  is_dict g → closed g → ranked rank g → within limit rank g → unshared g →
  ∃ res, _best_order limit g = Ok res ∧ offsets_address_parents res.
Proof.
  intros Hdict Hclosed Hranked Hwithin Hunshared.
  destruct (tree_self_contained g rank Hdict Hclosed Hranked Hunshared limit Hwithin)
    as (r & Hr & Hself & Hnd).
  exists (reverse r). split; [done|]. by apply (self_contained_offsets g).
Qed.

Lemma unshared_offsets_address_witness :
  ∃ res, _best_order 10 g_tree = Ok res ∧ offsets_address_parents res.
Proof. apply (unshared_offsets_address 10 rank_tree g_tree); by_computation. Defined.





(** ** Collections with a shared parent *)

Lemma before_in_app names ext x y : before_in names x y → before_in (names ++ ext) x y.
Proof.
  intros (a & b & Ha & Hb & Hlt). exists a, b.
  split_and!; [by apply lookup_app_l_Some | by apply lookup_app_l_Some | done].
Qed.

Section shared.
Variables (g : dict deps) (rank : string → nat) (D : depths).
Hypothesis Hclosed : closed g.
Hypothesis Hranked : ranked rank g.
Hypothesis HD : ∀ k ps p, dict_get g k = Some ps → p ∈ default [] ps → (D p < D k)%Z.

Lemma mark_undisturbed s k a :
  undisturbed D s →
  undisturbed D (mk_state (<[k:=(-1)%Z]> (depth s)) (result s ++ [(k, a)])).
Proof.
  intros Hund k'. simpl. destruct (decide (k = k')) as [<-|Hne].
  - rewrite fn_lookup_insert. lia.
  - rewrite fn_lookup_insert_ne by done. apply Hund.
Qed.

Lemma mark_edges s k a c q :
  dangling_edge g (mk_state (<[k:=(-1)%Z]> (depth s)) (result s ++ [(k, a)])) c q →
  c = k ∨ dangling_edge g s c q.
Proof.
  intros (cps & Hc & Hq & Hvc & Hnq). simpl in *.
  destruct (decide (c = k)) as [|Hne]; [by left|]. right.
  exists cps. rewrite fn_lookup_insert_ne in Hvc by done.
  assert (k ≠ q) as Hkq by (intros <-; rewrite fn_lookup_insert in Hnq; lia).
  rewrite fn_lookup_insert_ne in Hnq by done. done.
Qed.

(** Marking [k] visited: a parent that [k] shares with a visited node is
    visited already, since otherwise an edge to a node shallower than [k]
    would dangle. *)
Lemma mark_shared_seen s k ps a :
  dict_get g k = Some ps → pack_inv g s → shared_seen g s →
  ¬ (depth s k < 0)%Z → bounded_edges g D s (D k) →
  shared_seen g (mk_state (<[k:=(-1)%Z]> (depth s)) (result s ++ [(k, a)])).
Proof.
  intros Hk (Hnd & Hin & Hout) Hseen Hunvisited Hbound.
  assert (∀ p c cps, c ≠ k → dict_get g c = Some cps → p ∈ default [] cps →
            p ∈ default [] ps → (depth s c < 0)%Z →
            before_in ((result s).*1 ++ [k]) p k) as Hnew.
  { intros p c cps Hck Hc Hpc Hpk Hvc.
    destruct (decide (depth s p < 0)%Z) as [Hvp|Hnp].
    - assert (p ∈ (result s).*1) as [a_p Hap]%list_elem_of_lookup_1.
      { apply Hout; [|done]. by apply (parent_facts g rank Hclosed Hranked k ps p). }
      exists a_p, (length (result s).*1). split_and!.
      + by apply lookup_app_l_Some.
      + by rewrite list_lookup_middle.
      + by eapply lookup_lt_Some.
    - assert (D k ≤ D p)%Z as Hle.
      { apply (Hbound c p). by exists cps. }
      pose proof (HD k ps p Hk Hpk). lia. }
  intros p c1 cps1 c2 cps2 Hne Hc1 Hp1 Hc2 Hp2 Hv1 Hv2. simpl in *.
  rewrite fmap_app. simpl.
  destruct (decide (c1 = k)) as [->|Hc1k], (decide (c2 = k)) as [->|Hc2k]; [done | | |].
  - left. rewrite fn_lookup_insert_ne in Hv2 by done.
    assert (cps1 = ps) as -> by congruence. by apply (Hnew p c2 cps2).
  - right. rewrite fn_lookup_insert_ne in Hv1 by done.
    assert (cps2 = ps) as -> by congruence. by apply (Hnew p c1 cps1).
  - rewrite fn_lookup_insert_ne in Hv1, Hv2 by done.
    destruct (Hseen p c1 cps1 c2 cps2) as [H|H]; try done;
      [left | right]; by apply before_in_app.
Qed.

Lemma extend_shared_seen s b xs :
  shared_seen g s → shared_seen g (mk_state (depth s) (extend b xs (result s))).
Proof. unfold shared_seen. simpl. by rewrite extend_names. Qed.

Lemma share_loop_spec fuel (K : depths) nm vs :
  (∀ k ps s, dict_get g k = Some ps → rank k < fuel →
     pack_inv g s → undisturbed D s → shared_seen g s →
     (¬ (depth s k < 0)%Z → bounded_edges g D s (D k)) →
     share_post g D k s (_best_order_explore (annotate g) fuel (mk_Node k ps) s)) →
  Forall (λ v, dict_get g (name v) = Some (parents v) ∧ rank (name v) < fuel ∧
               (D (name v) < D nm)%Z) vs →
  StronglySorted (λ a b, K (name a) ≤ K (name b))%Z vs →
  ∀ d s (pre : list entry) o (mid : list entry),
    result s = pre ++ (nm, Some o) :: mid →
    pack_inv g s → undisturbed D s → shared_seen g s →
    (∀ k, ¬ (depth s k < 0)%Z → K k = D k) →
    (∀ c q, dangling_edge g s c q → (D nm ≤ D q)%Z ∨ (c = nm ∧ q ∈ name <$> vs)) →
    ∃ s' o' mid',
      explore_loop (_best_order_explore (annotate g) fuel) (length pre) vs d s = Ok s' ∧
      pack_inv g s' ∧ undisturbed D s' ∧ shared_seen g s' ∧ visited_kept s s' ∧
      no_new_edges g s s' ∧ Forall (λ v, (depth s' (name v) < 0)%Z) vs ∧
      result s' = pre ++ (nm, Some o') :: mid'.
Proof.
  intros Hrec Hvs. induction Hvs as [|[k ps] vs (Hk & Hfuel & Hlt) _ IH];
    intros Hsorted d s pre o mid Hres Hinv Hund Hseen HK Hedges.
  { exists s, o, mid. split_and!; try done; [by intros ? | by intros ? ?]. }
  simpl in Hk, Hfuel, Hlt. apply StronglySorted_inv in Hsorted as [Hsorted Hhead].
  simpl in Hhead.
  destruct (Hrec k ps s Hk Hfuel Hinv Hund Hseen)
    as (s1 & Heq & Hinv1 & Hund1 & Hseen1 & Hkept1 & Hvis1 & Hnew1 & ext & Hres1).
  { intros Hunvisited c q Hedge. destruct (Hedges c q Hedge) as [Hold|[-> Hq]]; [lia|].
    simpl in Hq. apply elem_of_cons in Hq as [->|Hq]; [lia|].
    apply list_elem_of_fmap in Hq as (v & -> & Hv).
    rewrite Forall_forall in Hhead. specialize (Hhead v Hv).
    destruct Hedge as (_ & _ & _ & _ & Hnq).
    rewrite (HK k Hunvisited), (HK (name v) Hnq) in Hhead. exact Hhead. }
  simpl. rewrite Heq. cbn [mbind exc_bind].
  rewrite Hres1, Hres, <-app_assoc. simpl. rewrite extend_at.
  set (xs := replicate (Z.to_nat d) "_" ++ [k]).
  set (s2 := mk_state _ _).
  assert (pack_inv g s2 ∧ shared_seen g s2) as [Hinv2 Hseen2].
  { pose proof (pack_inv_extend g s1 (length pre) xs Hinv1) as H1.
    pose proof (extend_shared_seen s1 (length pre) xs Hseen1) as H2.
    rewrite Hres1, Hres, <-app_assoc in H1, H2. simpl in H1, H2.
    rewrite extend_at in H1, H2. done. }
  destruct (IH Hsorted
              (Z.of_nat (length (pre ++ (nm, Some o) :: mid ++ ext))
               - Z.of_nat (length (pre ++ (nm, Some o) :: mid)) - 1)%Z
              s2 pre (o ++ xs) (mid ++ ext))
    as (s' & o' & mid' & Hloop & Hinv' & Hund' & Hseen' & Hkept' & Hnew' & Hall' & Hres');
    try done.
  - intros k' Hk'. apply HK. intros Hv. apply Hk'. simpl. by apply Hkept1.
  - intros c q Hedge. assert (dangling_edge g s1 c q) as Hedge1 by exact Hedge.
    destruct (Hedges c q (Hnew1 c q Hedge1)) as [Hold|[-> Hq]]; [by left|]. right.
    split; [done|]. simpl in Hq. apply elem_of_cons in Hq as [->|Hq]; [|done].
    by destruct Hedge1 as (_ & _ & _ & _ & Hnq).
  - exists s', o', mid'. split_and!; try done.
    + intros k' Hk'. apply Hkept'. simpl. by apply Hkept1.
    + intros c q Hedge. apply Hnew1. exact (Hnew' c q Hedge).
    + constructor; [|done]. simpl. apply Hkept'. exact Hvis1.
Qed.

Lemma share_explore_spec fuel k ps s :
  dict_get g k = Some ps → rank k < fuel →
  pack_inv g s → undisturbed D s → shared_seen g s →
  (¬ (depth s k < 0)%Z → bounded_edges g D s (D k)) →
  share_post g D k s (_best_order_explore (annotate g) fuel (mk_Node k ps) s).
Proof.
  revert k ps s. induction fuel as [|fuel IH];
    intros k ps s Hk Hfuel Hinv Hund Hseen Hbound; [lia|].
  assert (k ∈ keys g) as Hkey by (apply dict_get_is_Some; eauto).
  simpl. destruct (depth s k <? 0)%Z eqn:Hneg.
  { apply Z.ltb_lt in Hneg. exists s. split_and!; try done; [by intros ? | by intros ? ? |].
    exists []. by rewrite app_nil_r. }
  apply Z.ltb_ge in Hneg.
  assert (¬ (depth s k < 0)%Z) as Hunvisited by lia. specialize (Hbound Hunvisited).
  destruct (truthy ps) eqn:Htruthy; simpl.
  2:{ eexists. split_and!; [done | by apply pack_inv_visit | by apply mark_undisturbed
        | by apply (mark_shared_seen s k ps) | apply mark_visited_kept | | |]; simpl.
      - by rewrite fn_lookup_insert.
      - intros c q Hedge. destruct (mark_edges s k ps c q Hedge) as [->|]; [|done].
        destruct Hedge as (cps & Hc & Hq & _). assert (cps = ps) as -> by congruence.
        destruct ps as [[|??]|]; try done; by apply elem_of_nil in Hq.
      - by eexists. }
  assert (Forall (λ p, p ∈ keys g ∧ rank p < rank k) (default [] ps)) as Hparents.
  { apply Forall_forall. intros p Hp. by apply (parent_facts g rank Hclosed Hranked k ps p). }
  destruct (sorted_parents_spec g (default [] ps) (<[k:=(-1)%Z]> (depth s)))
    as (vs & Hsp & Hnames & Hnodes).
  { eapply Forall_impl; [exact Hparents|]. by intros p [? _]. }
  rewrite Hsp. cbn [mbind exc_bind].
  apply sorted_parents_inv in Hsp as (nodes & Hsorted & _).
  set (s1 := mk_state (<[k:=(-1)%Z]> (depth s)) (result s ++ [(k, Some [])])).
  assert (∀ v, v ∈ vs → name v ∈ default [] ps) as Hvs.
  { intros v Hv. rewrite <-Hnames. by apply list_elem_of_fmap_2. }
  rewrite Forall_forall in Hparents.
  destruct (share_loop_spec fuel (<[k:=(-1)%Z]> (depth s)) k vs IH) with (d := 0%Z) (s := s1)
      (pre := result s) (o := @nil string) (mid := @nil entry)
    as (s' & o' & mid' & -> & Hinv' & Hund' & Hseen' & Hkept' & Hnew' & Hall' & Hres').
  - apply Forall_forall. intros v Hv. rewrite Forall_forall in Hnodes.
    split_and!; [by apply Hnodes | | apply (HD k ps); [done | by apply Hvs]].
    destruct (Hparents _ (Hvs v Hv)). lia.
  - rewrite Hsorted. apply sorted_ascending.
  - done.
  - by apply pack_inv_visit.
  - by apply mark_undisturbed.
  - by apply (mark_shared_seen s k ps).
  - intros k' Hk'. by apply (mark_undisturbed s k (Some []) Hund k').
  - intros c q Hedge. destruct (mark_edges s k (Some []) c q Hedge) as [->|Hold].
    + right. split; [done|]. destruct Hedge as (cps & Hc & Hq & _).
      assert (cps = ps) as -> by congruence. by rewrite Hnames.
    + left. by apply (Hbound c q).
  - exists s'. split_and!; [done | done | done | done | | | |].
    + intros k' Hk'. apply Hkept'. by apply mark_visited_kept.
    + apply Hkept'. simpl. by rewrite fn_lookup_insert.
    + intros c q Hedge. destruct (mark_edges s k (Some []) c q (Hnew' c q Hedge)) as [->|]; [|done].
      exfalso. destruct Hedge as (cps & Hc & Hq & _ & Hnq).
      assert (cps = ps) as -> by congruence. rewrite <-Hnames in Hq.
      apply list_elem_of_fmap in Hq as (v & -> & Hv).
      rewrite Forall_forall in Hall'. by apply Hnq, Hall'.
    + eexists. rewrite Hres'. done.
Qed.
End shared.

Section shared_order.
Variables (g : dict deps) (rank : string → nat) (D : depths).
Hypothesis Hclosed : closed g.
Hypothesis Hranked : ranked rank g.
Hypothesis HD : ∀ k ps p, dict_get g k = Some ps → p ∈ default [] ps → (D p < D k)%Z.

Lemma share_order_spec limit (l : list _Node) s :
  Forall (λ v, dict_get g (name v) = Some (parents v) ∧ rank (name v) < limit) l →
  pack_inv g s → undisturbed D s → shared_seen g s →
  (∀ c q, ¬ dangling_edge g s c q) →
  ∃ s', for_each (_best_order_explore (annotate g) limit) l s = Ok s' ∧
    pack_inv g s' ∧ shared_seen g s' ∧ visited_kept s s' ∧
    Forall (λ v, (depth s' (name v) < 0)%Z) l.
Proof.
  intros Hl. revert s. induction Hl as [|[k ps] l [Hk Hlim] _ IH];
    intros s Hinv Hund Hseen Hnone.
  { exists s. split_and!; try done. by intros ?. }
  simpl in Hk, Hlim.
  destruct (share_explore_spec g rank D Hclosed Hranked HD limit k ps s Hk Hlim Hinv Hund Hseen)
    as (s1 & Heq & Hinv1 & Hund1 & Hseen1 & Hkept1 & Hvis1 & Hnew1 & _).
  { intros _ c q Hedge. by destruct (Hnone c q). }
  simpl. rewrite Heq. cbn [mbind exc_bind].
  destruct (IH s1 Hinv1 Hund1 Hseen1) as (s' & -> & Hinv' & Hseen' & Hkept' & Hall').
  { intros c q Hedge. apply (Hnone c q). by apply Hnew1. }
  exists s'. split_and!; try done.
  - intros k' Hk'. by apply Hkept', Hkept1.
  - constructor; [|done]. simpl. by apply Hkept'.
Qed.
End shared_order.

(** X12: when two different producers of an acyclic collection declare the
    same dependency, one of the two is placed before that parent: the
    resolved order is not topologically valid. *)
Theorem shared_parent_breaks_order limit rank (g : dict deps)
    (p c1 c2 : string) (ps1 ps2 : list string) :
  is_dict g → closed g → ranked rank g → within limit rank g →
  c1 ≠ c2 → (c1, Some ps1) ∈ g → p ∈ ps1 → (c2, Some ps2) ∈ g → p ∈ ps2 →
  ∃ res c i j, _best_order limit g = Ok res ∧ (c = c1 ∨ c = c2) ∧
    res.*1 !! i = Some c ∧ res.*1 !! j = Some p ∧ i < j ∧
    ¬ topologically_valid g res.
Proof.
  intros Hdict Hclosed Hranked Hwithin Hne Hc1 Hp1 Hc2 Hp2.
  apply (dict_get_elem_of g _ _ Hdict) in Hc1, Hc2.
  unfold _best_order.
  destruct (depth_total g rank Hclosed Hranked Hdict limit Hwithin) as (st & -> & Hinv & Hpos).
  cbn [mbind exc_bind].
  assert (∀ k ps, dict_get g k = Some ps → (0 ≤ st k)%Z) as Hset.
  { intros k ps Hk. apply Hpos. apply dict_get_is_Some. eauto. }
  destruct (share_order_spec g rank st Hclosed Hranked) with (limit := limit)
      (l := sorted (λ v, st (name v)) true (values (annotate g))) (s := mk_state st [])
    as (s' & -> & Hinv' & Hseen' & _ & Hall).
  - intros k ps q Hk Hq. apply (depth_inv_parent_lt g st k ps q); try done. by apply (Hset k ps).
  - rewrite sorted_perm, values_annotate. apply Forall_fmap, Forall_forall.
    intros [k ps] Hkv. simpl. split; [by apply dict_get_elem_of|].
    unfold within in Hwithin. rewrite Forall_forall in Hwithin. apply (Hwithin _ Hkv).
  - split_and!; simpl; [constructor | by intros ? ?%elem_of_nil |].
    intros k Hk Hneg. specialize (Hpos k Hk). lia.
  - by intros k _.
  - intros q d1 dps1 d2 dps2 _ Hd1 _ _ _ Hv1 _. simpl in Hv1.
    specialize (Hset d1 dps1 Hd1). lia.
  - intros c q (cps & Hc & _ & Hvc & _). simpl in Hvc. specialize (Hset c cps Hc). lia.
  - cbn [mbind exc_bind].
    rewrite sorted_perm, values_annotate, Forall_fmap, Forall_forall in Hall.
    assert (∀ k ps, dict_get g k = Some ps → (depth s' k < 0)%Z) as Hvisited.
    { intros k ps Hk. apply dict_get_Some in Hk. apply (Hall _ Hk). }
    assert (∃ c cps, (c = c1 ∨ c = c2) ∧ dict_get g c = Some (Some cps) ∧ p ∈ cps ∧
              before_in (result s').*1 p c) as (c & cps & Hc & Hcg & Hpc & a & b & Ha & Hb & Hlt).
    { destruct (Hseen' p c1 (Some ps1) c2 (Some ps2)) as [H|H]; try done;
        try (by eapply Hvisited).
      - exists c1, ps1. by split_and!; [left |..].
      - exists c2, ps2. by split_and!; [right |..]. }
    set (names := (result s').*1) in *.
    pose proof (lookup_lt_Some _ _ _ Hb) as Hblt.
    assert (reverse names !! (length names - S b) = Some c) as Hic.
    { rewrite reverse_lookup by lia. rewrite <-Hb. f_equal. lia. }
    assert (reverse names !! (length names - S a) = Some p) as Hjp.
    { rewrite reverse_lookup by lia. rewrite <-Ha. f_equal. lia. }
    exists (reverse (result s')), c, (length names - S b), (length names - S a).
    rewrite fmap_reverse. split_and!; [done | done | done | done | lia |].
    intros Hvalid.
    specialize (Hvalid c cps p (length names - S b) (length names - S a) Hcg Hpc).
    rewrite fmap_reverse in Hvalid. specialize (Hvalid Hic Hjp). lia.
Qed.

Lemma shared_parent_breaks_order_witness :
  ∃ res c i j, _best_order 10 g_diamond = Ok res ∧ (c = "b" ∨ c = "c") ∧
    res.*1 !! i = Some c ∧ res.*1 !! j = Some "a" ∧ i < j ∧
    ¬ topologically_valid g_diamond res.
Proof.
  apply (shared_parent_breaks_order 10 rank_diamond g_diamond "a" "b" "c" ["a"] ["b"; "a"]);
    [by_computation | by_computation | by_computation | by_computation | done
    | by_computation | by_computation | by_computation | by_computation].
Defined.

(** ** Depths and insertion order *)

Lemma dict_get_perm (g1 g2 : dict deps) k :
  is_dict g1 → g1 ≡ₚ g2 → dict_get g2 k = dict_get g1 k.
Proof.
  intros Hdict Hperm.
  assert (is_dict g2) as Hdict2 by (unfold is_dict, keys in *; by rewrite <-Hperm).
  destruct (dict_get g1 k) as [ps|] eqn:H1.
  - apply dict_get_elem_of; [done|]. rewrite <-Hperm. by apply dict_get_Some.
  - apply dict_get_None. apply dict_get_None in H1. unfold keys in *. by rewrite <-Hperm.
Qed.

(** X13: the depth of a node depends on the declared dependencies only,
    not on the insertion order of the collection. *)
Theorem depth_ignores_insertion_order limit rank (g1 g2 : dict deps) :
  is_dict g1 → closed g1 → ranked rank g1 → within limit rank g1 → g1 ≡ₚ g2 →
  ∃ st1 st2, _depth limit g1 = Ok (annotate g1, st1) ∧
    _depth limit g2 = Ok (annotate g2, st2) ∧
    ∀ k, k ∈ keys g1 → st1 k = st2 k.
Proof.
  intros Hdict Hclosed Hranked Hwithin Hperm.
  assert (keys g2 ≡ₚ keys g1) as Hkeys by (unfold keys; by rewrite Hperm).
  assert (is_dict g2) as Hdict2 by (unfold is_dict; by rewrite Hkeys).
  assert (closed g2) as Hclosed2.
  { unfold closed in *. rewrite <-Hperm. eapply Forall_impl; [exact Hclosed|].
    intros kv Hkv. simpl in *. eapply Forall_impl; [exact Hkv|].
    intros p Hp. simpl in *. by rewrite Hkeys. }
  assert (ranked rank g2) as Hranked2 by (unfold ranked in *; by rewrite <-Hperm).
  assert (within limit rank g2) as Hwithin2 by (unfold within in *; by rewrite <-Hperm).
  destruct (depth_total g1 rank Hclosed Hranked Hdict limit Hwithin) as (st1 & H1 & Hinv1 & Hpos1).
  destruct (depth_total g2 rank Hclosed2 Hranked2 Hdict2 limit Hwithin2)
    as (st2 & H2 & Hinv2 & Hpos2).
  exists st1, st2. split_and!; [done | done |].
  cut (∀ n k, rank k < n → k ∈ keys g1 → st1 k = st2 k).
  { intros H k Hk. by apply (H (S (rank k))); [lia|]. }
  induction n as [|n IH]; intros k Hn Hk; [lia|].
  pose proof Hk as [ps Hps]%dict_get_is_Some.
  destruct (Hinv1 k ps Hps) as [_ Hset1]. destruct (Hset1 (Hpos1 k Hk)) as [-> _].
  destruct (Hinv2 k ps) as [_ Hset2]; [by rewrite (dict_get_perm g1 g2)|].
  destruct Hset2 as [-> _]; [apply Hpos2; by rewrite Hkeys|].
  symmetry. apply depth_of_ext. apply Forall_forall. intros p Hp.
  destruct (parent_facts g1 rank Hclosed Hranked k ps p Hps Hp) as [Hpk Hlt].
  symmetry. apply IH; [lia | done].
Qed.

Lemma depth_ignores_insertion_order_witness :
  ∃ st1 st2, _depth 10 g_doc = Ok (annotate g_doc, st1) ∧
    _depth 10 (reverse g_doc) = Ok (annotate (reverse g_doc), st2) ∧
    ∀ k, k ∈ keys g_doc → st1 k = st2 k.
Proof.
  apply (depth_ignores_insertion_order 10 rank_doc g_doc (reverse g_doc));
    [by_computation.. |]. symmetry. apply reverse_Permutation.
Defined.
